(** * Ant routing: the orchestration layer of [ant_easy.py]

    A shallow embedding of the functions of [ant_easy.py] that the
    specification talks about: [generate_seed], [stop_all_nodes],
    [get_route], [check_match] and [build_route].

    Python values are modelled as follows.
    - integers are [Z]; a [str] is a [string];
    - a Python list used as an array is a Rocq [list], indexed the way
      Python does it (negative indices count from the end);
    - a [dict] is a [gmap];
    - list objects that are mutated in place live in a heap of list
      objects, so that two references to one object see the same content;
    - a raised exception is a value of [exn], carried by [outcome]. *)

From Stdlib Require Import ZArith Lia List Ascii String Bool.
From stdpp Require Import base option list gmap strings sorting.

Local Open Scope Z_scope.

(** ** Exceptions and outcomes *)

(** The exceptions the embedded code can raise: the two explicit
    [raise Exception(msg)] statements of [get_route], and the built-in
    errors of list indexing, dictionary lookup and attribute access on
    [None]. *)
Inductive exn : Type :=
  | PyException (msg : string)
  | IndexError
  | KeyError
  | AttributeError.

(** [Unbounded] is the outcome of a run that has used up its fuel: the
    recursion (or the loop) has not reached a [return] or a [raise] within
    the given number of steps. *)
Inductive outcome (A : Type) : Type :=
  | Ret (a : A)
  | Raise (e : exn)
  | Unbounded.

Arguments Ret {A} a.
Arguments Raise {A} e.
Arguments Unbounded {A}.

(** The error kinds named by the specification. *)
Inductive error_kind : Type :=
  | InvalidEndpoint
  | BudgetExhausted
  | NotMatched
  | Integrity.

Definition msg_not_connected : string := "alice or bob are not connected".
Definition msg_same_node : string := "alice and bob is the same node".

(** Which kind of the specification an exception of the code stands for.
    The two messages of [get_route] are its endpoint validation; the
    built-in lookup errors belong to none of the kinds. *)
Definition kind_of (e : exn) : option error_kind :=
  match e with
  | PyException msg =>
      if bool_decide (msg = msg_not_connected) then Some InvalidEndpoint
      else if bool_decide (msg = msg_same_node) then Some InvalidEndpoint
      else None
  | IndexError | KeyError | AttributeError => None
  end.

Definition fails_with {A : Type} (o : outcome A) (k : error_kind) : Prop :=
  exists e, o = Raise e /\ kind_of e = Some k.

(** ** Data model *)

(** The objects of [ant_testing] as [ant_easy.py] uses them.  A [Match] is
    read through [match_id] and [from_id]; a [Payment] is built from eight
    positional arguments and read through [match]; a [Node] is read
    through [maxfees], [payment] and [match_data].  Nodes refer to each
    other by their index in the network. *)
Record Match : Type := mkMatch {
  match_id : string;
  from_id : Z
}.

(** Modelled from the spec: the names of the positional parameters of
    [Payment] (class of [ant_testing]), in the order of section 3: seed,
    amount, the role flags is-Bob-side and is-Alice-side, the two
    endpoints, fee budget, hop-budget counter. *)
Record Payment : Type := mkPayment {
  p_seed : string;
  p_amount : Z;
  p_is_bob : bool;
  p_is_alice : bool;
  p_bob : Z;
  p_alice : Z;
  p_fees : Z;
  p_counter : Z;
  p_match : option Match
}.

(** Modelled from the spec: the constructor call [Payment(a1, ..., a8)]
    of [ant_testing]; a new payment has no match, the watcher polls the
    record until one is there (section 4.4). *)
Definition new_Payment (s : string) (amount : Z) (b a : bool)
    (node_bob node_alice : Z) (fees counter : Z) : Payment :=
  mkPayment s amount b a node_bob node_alice fees counter None.

Record Node : Type := mkNode {
  node_id : Z;
  neighbors : list Z;
  maxfees : Z;
  payment : option Payment;
  match_data : gmap string Z
}.

(** Modelled from the spec: [node.set_payment(p)] of [ant_testing], which
    installs the payment record on the node (section 6). *)
Definition set_payment (p : Payment) (n : Node) : Node :=
  mkNode (node_id n) (neighbors n) (maxfees n) (Some p) (match_data n).

(** ** Python list indexing *)

(** [l[i]]: an index in [-len, len) is in range, a negative one counts
    from the end; anything else raises [IndexError] ([None] here). *)
Definition py_index {A : Type} (l : list A) (i : Z) : option A :=
  let n := Z.of_nat (length l) in
  if (0 <=? i) && (i <? n) then l !! Z.to_nat i
  else if (- n <=? i) && (i <? 0) then l !! Z.to_nat (n + i)
  else None.

(** ** The heap of list objects *)

Definition loc : Type := nat.

(** The list object created for the default value of [res] when the
    [def build_route] statement is executed. *)
Definition res_default : loc := 0%nat.

(** Content of a list object. *)
Definition deref (h : gmap loc (list Z)) (l : loc) : list Z :=
  default [] (h !! l).

(** [res.append(x)] *)
Definition append (h : gmap loc (list Z)) (l : loc) (x : Z) : gmap loc (list Z) :=
  <[l := deref h l ++ [x]]> h.

(** The heap right after the module has been loaded. *)
Definition init_heap : gmap loc (list Z) := {[res_default := []]}.

(** ** [build_route] *)

(** [network[current].match_data[matchId]] *)
Definition pointer (network : list Node) (matchId : string) (current : Z)
    : outcome Z :=
  match py_index network current with
  | None => Raise IndexError
  | Some node =>
      match match_data node !! matchId with
      | None => Raise KeyError
      | Some next => Ret next
      end
  end.

(** [build_route(network, matchId, current, res)], with [res] a reference
    to a list object.  The fuel bounds the depth of the recursion. *)
Fixpoint build_route (fuel : nat) (network : list Node) (matchId : string)
    (current : Z) (res : loc) (h : gmap loc (list Z))
    : outcome loc * gmap loc (list Z) :=
  match fuel with
  | O => (Unbounded, h)
  | S fuel' =>
      match pointer network matchId current with
      | Ret next =>
          let h' := append h res current in
          if current =? next then (Ret res, h')
          else build_route fuel' network matchId next res h'
      | Raise e => (Raise e, h)
      | Unbounded => (Unbounded, h)
      end
  end.

(** [build_route(network, matchId, current)]: [res] is the default. *)
Definition build_route_default (fuel : nat) (network : list Node)
    (matchId : string) (current : Z) (h : gmap loc (list Z))
    : outcome loc * gmap loc (list Z) :=
  build_route fuel network matchId current res_default h.

(** What the caller sees of a call: the outcome, with the content of the
    returned list at the moment of the return. *)
Definition returned (r : outcome loc * gmap loc (list Z)) : outcome (list Z) :=
  match fst r with
  | Ret l => Ret (deref (snd r) l)
  | Raise e => Raise e
  | Unbounded => Unbounded
  end.

(** ** [generate_seed] *)

(** Binary digits of a positive number, most significant first. *)
Fixpoint bits (p : positive) : string :=
  match p with
  | xH => "1"
  | xO q => bits q +:+ "0"
  | xI q => bits q +:+ "1"
  end.

(** [bin(n)] *)
Definition bin (n : Z) : string :=
  match n with
  | Z0 => "0b0"
  | Zpos p => "0b" +:+ bits p
  | Zneg p => "-0b" +:+ bits p
  end.

(** [s[n:]] for [0 <= n] *)
Fixpoint slice_from (n : nat) (s : string) : string :=
  match n, s with
  | O, _ => s
  | S _, EmptyString => EmptyString
  | S n', String _ s' => slice_from n' s'
  end.

(** ['0' * n] *)
Fixpoint zeros (n : nat) : string :=
  match n with
  | O => EmptyString
  | S n' => String "0" (zeros n')
  end.

Definition is_sign (c : ascii) : bool :=
  bool_decide (c = "+"%char) || bool_decide (c = "-"%char).

(** [s.zfill(width)]: pads on the left with zeros up to [width], after a
    leading sign if there is one. *)
Definition zfill (width : nat) (s : string) : string :=
  let fill := zeros (width - String.length s) in
  match s with
  | String c rest => if is_sign c then String c (fill +:+ rest) else fill +:+ s
  | EmptyString => fill
  end.

(** The random number generator of Python's [random] module, as the two
    functions the program calls, threading the generator's state. *)
Class RandomSource (rng : Type) : Type := {
  getrandbits : Z -> rng -> Z * rng;
  randint : Z -> Z -> rng -> Z * rng
}.

(** What the library documents about them: [getrandbits(k)] is a
    non-negative integer of [k] random bits, [randint(a, b)] is an integer
    [N] with [a <= N <= b]. *)
Class RandomSourceOk (rng : Type) `{RandomSource rng} : Prop := {
  getrandbits_range : forall (k : Z) (g : rng),
    0 <= k -> 0 <= fst (getrandbits k g) < 2 ^ k;
  randint_range : forall (a b : Z) (g : rng),
    a <= b -> a <= fst (randint a b g) <= b
}.

(** [bin(n)[2:].zfill(128)] for the drawn number [n] *)
Definition seed_of (n : Z) : string := zfill 128 (slice_from 2 (bin n)).

Definition generate_seed `{RandomSource rng} (g : rng) : string * rng :=
  let (n, g') := getrandbits 128 g in (seed_of n, g').

(** A generator to run the definitions with: a counter. *)
Definition counter_getrandbits (k : Z) (g : Z) : Z * Z := (g mod 2 ^ k, g + 1).
Definition counter_randint (a b : Z) (g : Z) : Z * Z := (a + g mod (b - a + 1), g + 1).

#[export] Instance counter_source : RandomSource Z :=
  {| getrandbits := counter_getrandbits; randint := counter_randint |}.

(** ** [stop_all_nodes], [get_route] *)

(** The calls the watcher makes: [asyncio.sleep(t)] on the scheduler and
    [stop()] on the node of index [i]. *)
Inductive action : Type :=
  | Sleep (t : Z)
  | StopNode (i : nat).

(** [stop_all_nodes(network)]: [node.stop()] on every node, in order. *)
Definition stop_all_nodes (network : list Node) : list action :=
  map StopNode (seq 0 (length network)).

(** The state [get_route] works on: the nodes, the tasks created so far
    (by the index of the node whose [ant_route] they run) and the random
    generator. *)
Record state (rng : Type) : Type := mkState {
  st_network : list Node;
  st_tasks : list nat;
  st_rng : rng
}.

Arguments mkState {rng} _ _ _.
Arguments st_network {rng} _.
Arguments st_tasks {rng} _.
Arguments st_rng {rng} _.

(** [get_route(network, alice, bob, amount)] up to its last line,
    [await asyncio.gather( *tasks)]: [Ret tt] means that the payments are
    installed and the tasks created.  What the tasks do is
    [Node.ant_route], of [ant_testing]. *)
Definition get_route `{RandomSource rng} (st : state rng) (alice bob amount : Z)
    : outcome unit * state rng :=
  let network := st_network st in
  let len := Z.of_nat (length network) in
  if negb ((0 <=? alice) && (alice <? len)) || negb ((0 <=? bob) && (bob <? len))
  then (Raise (PyException msg_not_connected), st)
  else if bob =? alice
  then (Raise (PyException msg_same_node), st)
  else
    let (seed, g1) := generate_seed (st_rng st) in
    let (counter, g2) := randint 64 128 g1 in
    match py_index network bob, py_index network alice with
    | Some node_bob, Some node_alice =>
        let payment_alice :=
          new_Payment seed amount false true bob alice
            (maxfees node_bob + maxfees node_alice) counter in
        let payment_bob :=
          new_Payment seed amount true false bob alice
            (maxfees node_bob + maxfees node_alice) counter in
        let network1 := alter (set_payment payment_bob) (Z.to_nat bob) network in
        let network2 := alter (set_payment payment_alice) (Z.to_nat alice) network1 in
        (Ret tt, mkState network2 (st_tasks st ++ seq 0 (length network2)) g2)
    | _, _ => (Raise IndexError, mkState network (st_tasks st) g2)
    end.

(** ** [check_match] *)

(** [network[fromNode].payment.match] *)
Definition match_of (network : list Node) (fromNode : Z) : outcome (option Match) :=
  match py_index network fromNode with
  | None => Raise IndexError
  | Some node =>
      match payment node with
      | None => Raise AttributeError
      | Some p => Ret (p_match p)
      end
  end.

(** [check_match(network, fromNode, checkTime, stop)].  The nodes are
    changed by the other tasks while this one sleeps: [env k] is the
    network as it is when the loop body runs for the [k]-th time (counting
    from 0).  The result is the outcome with the calls made, in order. *)
Fixpoint check_match (fuel : nat) (env : nat -> list Node) (fromNode checkTime : Z)
    (stop : bool) (k : nat) : outcome unit * list action :=
  match fuel with
  | O => (Unbounded, [])
  | S fuel' =>
      match match_of (env k) fromNode with
      | Ret None =>
          let (o, tr) := check_match fuel' env fromNode checkTime stop (S k) in
          (o, Sleep checkTime :: tr)
      | Ret (Some _) =>
          (Ret tt, if stop then stop_all_nodes (env k) else [])
      | Raise e => (Raise e, [])
      | Unbounded => (Unbounded, [])
      end
  end.

(** ** Pure views of the route builder, used to state its properties *)

(** How a run of [build_route] ends. *)
Inductive halt : Type :=
  | Returned
  | Raised (e : exn)
  | OutOfFuel.

Definition outcome_of (res : loc) (s : halt) : outcome loc :=
  match s with
  | Returned => Ret res
  | Raised e => Raise e
  | OutOfFuel => Unbounded
  end.

(** The identities [build_route] appends, in order, and how it ends. *)
Fixpoint visit (fuel : nat) (network : list Node) (matchId : string)
    (current : Z) : list Z * halt :=
  match fuel with
  | O => ([], OutOfFuel)
  | S fuel' =>
      match pointer network matchId current with
      | Ret next =>
          if current =? next then ([current], Returned)
          else let (l, s) := visit fuel' network matchId next in (current :: l, s)
      | Raise e => ([], Raised e)
      | Unbounded => ([], OutOfFuel)
      end
  end.

(** [appends h res l]: [res.append(x)] for every [x] of [l], in order. *)
Definition appends (h : gmap loc (list Z)) (res : loc) (l : list Z)
    : gmap loc (list Z) :=
  foldl (fun h' x => append h' res x) h l.

(** The node reached from [c] by following [k] pointers, if all the
    lookups on the way succeed. *)
Fixpoint follow (network : list Node) (matchId : string) (k : nat) (c : Z)
    : option Z :=
  match k with
  | O => Some c
  | S k' =>
      match pointer network matchId c with
      | Ret n => follow network matchId k' n
      | _ => None
      end
  end.

(** A chain of pointers from [c] that ends at the first node pointing to
    itself. *)
Inductive chain (network : list Node) (matchId : string) : Z -> list Z -> Prop :=
  | chain_end c :
      pointer network matchId c = Ret c ->
      chain network matchId c [c]
  | chain_step c n l :
      pointer network matchId c = Ret n ->
      c <> n ->
      chain network matchId n l ->
      chain network matchId c (c :: l).

(** From [c], every pointer lookup succeeds and no node points to
    itself. *)
Definition endless (network : list Node) (matchId : string) (c : Z) : Prop :=
  forall k, exists y n,
    follow network matchId k c = Some y /\
    pointer network matchId y = Ret n /\ n <> y.

(** The pointers from [start] lead into a cycle, none of whose nodes
    points to itself. *)
Definition cyclic (network : list Node) (matchId : string) (start : Z) : Prop :=
  exists j p x,
    follow network matchId j start = Some x /\
    follow network matchId (S p) x = Some x /\
    forall i y, follow network matchId i x = Some y ->
      pointer network matchId y <> Ret y.

(** No node of the network has an entry for [matchId], and no payment
    carries a match: the state before any match has been recorded. *)
Definition no_match (network : list Node) (matchId : string) : Prop :=
  forall node, node ∈ network ->
    match_data node !! matchId = None /\
    (forall p, payment node = Some p -> p_match p = None).

(** Example networks. *)
Definition plain_node (i : Z) (md : gmap string Z) : Node :=
  mkNode i [] 0 None md.

(** Three nodes in a line, the pointers of match ["m"] leading from node 1
    to node 0, and from node 2 to node 1. *)
Definition line_network : list Node :=
  [ plain_node 0 {["m" := 0]}; plain_node 1 {["m" := 0]}; plain_node 2 {["m" := 1]} ].

(** Two nodes pointing at each other. *)
Definition loop_network : list Node :=
  [ plain_node 0 {["m" := 1]}; plain_node 1 {["m" := 0]} ].

(** One node with no pointer at all. *)
Definition blank_network : list Node := [ plain_node 0 ∅ ].

(** Every character of [s] is ['0'] or ['1']. *)
Fixpoint is_binary (s : string) : bool :=
  match s with
  | EmptyString => true
  | String c s' =>
      (bool_decide (c = "0"%char) || bool_decide (c = "1"%char)) && is_binary s'
  end.

(** [0 <= i < len(network)] *)
Definition in_range {rng : Type} (st : state rng) (i : Z) : Prop :=
  0 <= i < Z.of_nat (length (st_network st)).

(** A network and a state to run [get_route] on. *)
Definition fee_node (i fees : Z) : Node := mkNode i [] fees None ∅.

Definition demo_state : state Z :=
  mkState [fee_node 0 3; fee_node 1 4; fee_node 2 5] [] 7.

(** A network seen by a watcher: the payment of node 0 gets its match
    during the second sleep. *)
Definition paid_node (i : Z) (m : option Match) : Node :=
  mkNode i [] 0 (Some (mkPayment "s" 1 false true 1 0 0 64 m)) ∅.

Definition demo_env (k : nat) : list Node :=
  [ paid_node 0 (if (k <? 2)%nat then None else Some (mkMatch "m" 1));
    fee_node 1 0 ].

(** * The search process of the nodes *)

(** The flood itself runs in [Node.ant_route], which [get_route] starts
    as one task per node and which is not part of [ant_easy.py].  It is
    modelled here for one search (one seed), nodes being named by their
    index in the network. *)

Inductive role : Type := AliceSide | BobSide.

Definition opposite (r : role) : role :=
  match r with AliceSide => BobSide | BobSide => AliceSide end.

#[export] Instance role_eq_dec : EqDecision role.
Proof. solve_decision. Defined.

(** Modelled from the spec: the pheromone ledger of a node (section 4.2),
    a two-slot record for the seed of the search, each slot holding
    [visited] and [arrived-from]. *)
Record slot : Type := mkSlot {
  visited : bool;
  arrived_from : option nat
}.

Record ledger : Type := mkLedger {
  alice_side : slot;
  bob_side : slot
}.

Definition empty_ledger : ledger :=
  mkLedger (mkSlot false None) (mkSlot false None).

Definition get_slot (r : role) (L : ledger) : slot :=
  match r with AliceSide => alice_side L | BobSide => bob_side L end.

Definition set_slot (r : role) (sl : slot) (L : ledger) : ledger :=
  match r with
  | AliceSide => mkLedger sl (bob_side L)
  | BobSide => mkLedger (alice_side L) sl
  end.

(** Modelled from the spec: a pheromone signal [(seed, role, sender)] on
    its way to node [sg_to], with the hop-budget counter and the fee
    budget of the payment it carries along the forwarding chain
    (section 3). *)
Record signal : Type := mkSignal {
  sg_to : nat;
  sg_role : role;
  sg_sender : nat;
  sg_counter : Z;
  sg_fees : Z
}.

(** The state of one search: the ledger of every node, the signals sent
    and not yet handled, and where the match was found, if it was. *)
Record flood : Type := mkFlood {
  ledgers : list ledger;
  inflight : list signal;
  located_at : option nat
}.

(** Emitting a match is idempotent: only the first emission counts. *)
Definition emit (v : nat) (m : option nat) : option nat :=
  match m with Some x => Some x | None => Some v end.

(** [(seed, role, self)] for every neighbour except the sender. *)
Definition forwards (nbrs : list nat) (v : nat) (r : role) (sender : nat)
    (c f : Z) : list signal :=
  map (fun w => mkSignal w r v c f) (filter (fun w => w <> sender) nbrs).

(** Modelled from the spec: step 1 of the node search process (section
    4.1), for the node [sg_to sig] receiving [sig].  The slot of the
    opposite role is looked up first; a signal whose role is already
    visited is dropped, a match still being detected; if the opposite role
    is visited the node emits a match; otherwise it marks the role
    visited, records the sender, decrements the hop-budget counter and,
    if the counter is still positive and the fee budget not exhausted,
    forwards the signal to every neighbour except the sender.  [graph]
    gives the neighbours of every node; [hop_cost] is what one hop takes
    from the fee budget (the cost model is left to a collaborator). *)
Definition handle (graph : list (list nat)) (hop_cost : Z) (sig : signal)
    (s : flood) : flood :=
  let v := sg_to sig in
  let r := sg_role sig in
  match ledgers s !! v with
  | None => s
  | Some L =>
      let opp := visited (get_slot (opposite r) L) in
      if visited (get_slot r L) then
        mkFlood (ledgers s) (inflight s)
          (if opp then emit v (located_at s) else located_at s)
      else if opp then
        mkFlood (ledgers s) (inflight s) (emit v (located_at s))
      else
        let c' := sg_counter sig - 1 in
        let f' := sg_fees sig - hop_cost in
        let L' := set_slot r (mkSlot true (Some (sg_sender sig))) L in
        let out :=
          if (0 <? c') && (0 <? f')
          then forwards (default [] (graph !! v)) v r (sg_sender sig) c' f'
          else [] in
        mkFlood (<[v := L']> (ledgers s)) (inflight s ++ out) (located_at s)
  end.

(** Modelled from the spec: the scheduling of section 5, one task per
    node, a node suspended only while it waits for a signal.  Any signal
    in flight may be the next one handled: [deliver i s] handles the one
    at position [i] (modulo the number of signals in flight); with no
    signal in flight nothing happens any more. *)
Definition deliver (graph : list (list nat)) (hop_cost : Z) (i : nat)
    (s : flood) : flood :=
  let j := (i mod length (inflight s))%nat in
  match inflight s !! j with
  | None => s
  | Some sig =>
      handle graph hop_cost sig
        (mkFlood (ledgers s) (delete j (inflight s)) (located_at s))
  end.

(** A run: the deliveries a schedule chooses, one after the other. *)
Definition run (graph : list (list nat)) (hop_cost : Z) (schedule : list nat)
    (s : flood) : flood :=
  foldl (fun s' i => deliver graph hop_cost i s') s schedule.

(** Modelled from the spec: the state in which a search between the
    endpoints [a] and [b] begins (section 6): every ledger is blank and
    each endpoint initiates the signal of its own role, with itself as
    sender, carrying the hop budget and the fee budget of its payment. *)
Definition search_state (graph : list (list nat)) (a b : nat)
    (hop_budget fees : Z) : flood :=
  mkFlood (replicate (length graph) empty_ledger)
    [ mkSignal a AliceSide a hop_budget fees;
      mkSignal b BobSide b hop_budget fees ]
    None.

(** Modelled from the spec: [initiate_search] (section 6).  It fails with
    InvalidEndpoint, and launches no search, when an endpoint is out of
    range or the two endpoints are the same node (sections 7 and 8);
    otherwise the search begins in [search_state]. *)
Definition start_search (graph : list (list nat)) (a b : nat)
    (hop_budget fees : Z) : error_kind + flood :=
  if (a <? length graph)%nat && (b <? length graph)%nat && negb (a =? b)%nat
  then inr (search_state graph a b hop_budget fees)
  else inl InvalidEndpoint.

(** The graph of the topology provider: [graph !! u] lists the
    neighbours of node [u]. *)
Definition adjacent (graph : list (list nat)) (u w : nat) : Prop :=
  exists l, graph !! u = Some l /\ w ∈ l.

Definition wf_graph (graph : list (list nat)) : Prop :=
  forall u w, adjacent graph u w -> (w < length graph)%nat.

Definition connected (graph : list (list nat)) : Prop :=
  forall u w, (u < length graph)%nat -> (w < length graph)%nat ->
    rtc (adjacent graph) u w.

(** [walk graph k u w]: [w] is [k] hops away from [u] along some walk. *)
Inductive walk (graph : list (list nat)) : nat -> nat -> nat -> Prop :=
  | walk_here u : walk graph 0 u u
  | walk_hop k u v w :
      adjacent graph u v -> walk graph k v w -> walk graph (S k) u w.

(** The distance from [a] to [b] lies within the two hop budgets taken
    together. *)
Definition within_combined_budget (graph : list (list nat)) (a b : nat)
    (hop_budget : Z) : Prop :=
  exists k, walk graph k a b /\ Z.of_nat k <= hop_budget + hop_budget.

Definition max_degree (graph : list (list nat)) : nat :=
  foldr (fun l m => Nat.max (length l) m) 0%nat graph.

(** The number of nodes whose slot for [r] is visited. *)
Fixpoint count_visited (r : role) (ls : list ledger) : nat :=
  match ls with
  | [] => 0
  | L :: ls' =>
      ((if visited (get_slot r L) then 1 else 0) + count_visited r ls')%nat
  end.

(** A bound on the deliveries still to come: one for every signal in
    flight, and for every slot not yet visited the signal that will mark
    it with the signals this can send. *)
Definition work (graph : list (list nat)) (s : flood) : nat :=
  (length (inflight s) +
   (max_degree graph + 1) *
     ((length (ledgers s) - count_visited AliceSide (ledgers s)) +
      (length (ledgers s) - count_visited BobSide (ledgers s))))%nat.

(** Node [v] has its slot for [r] visited. *)
Definition marked (r : role) (ls : list ledger) (v : nat) : Prop :=
  exists L, ls !! v = Some L /\ visited (get_slot r L) = true.

(** Node [w] is visited for [r], or a signal of role [r] is on its way
    to it. *)
Definition pending (r : role) (s : flood) (w : nat) : Prop :=
  marked r (ledgers s) w \/
  exists sig, sig ∈ inflight s /\ sg_to sig = w /\ sg_role sig = r.

(** What holds of a search as long as no match has been emitted: the
    budgets in flight have lost at most one hop per visited node; every
    sender is visited; a visited node has reached all its neighbours,
    unless every node is visited already; both endpoints have started;
    no node is visited for both roles. *)
Record flood_good (graph : list (list nat)) (a b : nat)
    (hop_budget fees hop_cost : Z) (s : flood) : Prop := mkGood {
  good_budget : forall sig, sig ∈ inflight s ->
    hop_budget - Z.of_nat (count_visited (sg_role sig) (ledgers s))
      <= sg_counter sig /\
    fees - Z.of_nat (count_visited (sg_role sig) (ledgers s)) * hop_cost
      <= sg_fees sig;
  good_sender : forall sig, sig ∈ inflight s ->
    marked (sg_role sig) (ledgers s) (sg_sender sig) \/ sg_sender sig = sg_to sig;
  good_closed : forall r v, marked r (ledgers s) v ->
    (forall w, adjacent graph v w -> pending r s w) \/
    (forall x, (x < length graph)%nat -> marked r (ledgers s) x);
  good_started : pending AliceSide s a /\ pending BobSide s b;
  good_disjoint : forall v,
    ~ (marked AliceSide (ledgers s) v /\ marked BobSide (ledgers s) v)
}.

Definition flood_inv (graph : list (list nat)) (a b : nat)
    (hop_budget fees hop_cost : Z) (s : flood) : Prop :=
  length (ledgers s) = length graph /\
  (forall sig, sig ∈ inflight s -> (sg_to sig < length graph)%nat) /\
  (is_Some (located_at s) \/ flood_good graph a b hop_budget fees hop_cost s).

(** A line of [n] nodes, [0 - 1 - ... - (n-1)]. *)
Definition line_neighbours (n v : nat) : list nat :=
  (match v with O => [] | S u => [u] end) ++
  (if (S v <? n)%nat then [S v] else []).

Definition long_line (n : nat) : list (list nat) :=
  map (line_neighbours n) (seq 0 n).

(** On a line of [n] nodes searched from its two ends with hop budget
    [c], as long as the budget of a signal does not take it past [c]
    hops from its own end: no match, every signal in flight still has a
    positive counter and is no more hops from its end than it has used
    up, and every visited node is less than [c] hops from the end of its
    role. *)
Definition far_from_end (n : nat) (r : role) (v : nat) : Z :=
  match r with
  | AliceSide => Z.of_nat v
  | BobSide => Z.of_nat n - 1 - Z.of_nat v
  end.

Definition apart (n : nat) (c : Z) (s : flood) : Prop :=
  located_at s = None /\
  length (ledgers s) = n /\
  (forall sig, sig ∈ inflight s ->
     (sg_to sig < n)%nat /\ 1 <= sg_counter sig /\
     far_from_end n (sg_role sig) (sg_to sig) + sg_counter sig <= c) /\
  (forall r v, marked r (ledgers s) v -> far_from_end n r v + 1 <= c).

(** The states a search on [line_graph] with hop budget 1 can be in:
    which of the two endpoints have handled their own signal. *)
Definition line_state (a_done b_done : bool) : flood :=
  mkFlood
    [ mkLedger (mkSlot a_done (if a_done then Some 0%nat else None)) (mkSlot false None);
      empty_ledger;
      mkLedger (mkSlot false None) (mkSlot b_done (if b_done then Some 2%nat else None)) ]
    ((if a_done then [] else [mkSignal 0 AliceSide 0 1 1]) ++
     (if b_done then [] else [mkSignal 2 BobSide 2 1 1]))
    None.

(** The line [0 - 1 - 2] of the specification's scenarios. *)
Definition line_graph : list (list nat) := [ [1%nat]; [0%nat; 2%nat]; [1%nat] ].

(** ** Signals handled in the order they were sent *)

(** Modelled from the spec: the cooperative scheduling of section 5 as an
    event loop that resumes the waiting nodes in the order in which their
    signals were sent.  The oldest signal in flight is always the next one
    handled: position 0, since new signals are added at the end.  It is
    under this order that the match of the scenario on the line
    [0 - 1 - 2] is located at node 1 for every hop budget from 2 on. *)
Definition in_order (n : nat) : list nat := replicate n 0%nat.

(** The graph is undirected (section 2). *)
Definition undirected (graph : list (list nat)) : Prop :=
  forall u w, adjacent graph u w -> adjacent graph w u.

(** The hops a signal has behind it, out of a hop budget [c]. *)
Definition hops_used (c : Z) (sig : signal) : Z := c - sg_counter sig.

(** Node [w] is visited for [r] at level at most [k], or a signal of role
    [r] that has used at most [k] hops is on its way to it.  [lev] gives
    the level of the visited slots: the hops the signal that marked them
    had used. *)
Definition reached (c : Z) (lev : role -> nat -> Z) (r : role) (s : flood)
    (w : nat) (k : Z) : Prop :=
  (marked r (ledgers s) w /\ lev r w <= k) \/
  exists sig, sig ∈ inflight s /\ sg_to sig = w /\ sg_role sig = r /\
    hops_used c sig <= k.

(** The level of the slots once the slot of [r0] at [v0] has been marked
    at level [k]. *)
Definition mark_level (lev : role -> nat -> Z) (r0 : role) (v0 : nat) (k : Z)
    : role -> nat -> Z :=
  fun r v => if decide (r = r0 /\ v = v0) then k else lev r v.

(** What holds of a search handled in order as long as no match has been
    emitted: the signals in flight are in the order of the hops they have
    used, which differ by one at most; no visited slot has a level above
    the hops used by a signal in flight; the fee budget has paid for the
    hops used; every sender is visited; a node visited with at least two
    hops of budget left has reached each neighbour one level further;
    both endpoints have started; no node is visited for both roles. *)
Record bfs_good (graph : list (list nat)) (a b : nat)
    (c fees hop_cost : Z) (lev : role -> nat -> Z) (s : flood) : Prop := mkBfs {
  bfs_sorted :
    StronglySorted (fun s1 s2 => sg_counter s2 <= sg_counter s1) (inflight s);
  bfs_close : forall s1 s2, s1 ∈ inflight s -> s2 ∈ inflight s ->
    sg_counter s1 <= sg_counter s2 + 1;
  bfs_level : forall r v sig, marked r (ledgers s) v -> sig ∈ inflight s ->
    lev r v <= hops_used c sig;
  bfs_fees : forall sig, sig ∈ inflight s ->
    sg_fees sig = fees - hops_used c sig * hop_cost;
  bfs_sender : forall sig, sig ∈ inflight s ->
    marked (sg_role sig) (ledgers s) (sg_sender sig) \/ sg_sender sig = sg_to sig;
  bfs_closed : forall r v w, marked r (ledgers s) v -> lev r v + 2 <= c ->
    adjacent graph v w -> reached c lev r s w (lev r v + 1);
  bfs_started : reached c lev AliceSide s a 0 /\ reached c lev BobSide s b 0;
  bfs_disjoint : forall v,
    ~ (marked AliceSide (ledgers s) v /\ marked BobSide (ledgers s) v)
}.

Definition bfs_inv (graph : list (list nat)) (a b : nat)
    (c fees hop_cost : Z) (s : flood) : Prop :=
  length (ledgers s) = length graph /\
  (forall sig, sig ∈ inflight s -> (sg_to sig < length graph)%nat) /\
  (is_Some (located_at s) \/
   exists lev, bfs_good graph a b c fees hop_cost lev s).

(** Two triangles joined by an edge: [0 - 1 - 2 - 0], [3 - 4 - 5 - 3] and
    [2 - 3].  From node 0 to node 5 there are three hops, but a signal can
    reach node 2 or node 3 the long way round its triangle first. *)
Definition detour_graph : list (list nat) :=
  [ [1; 2]; [0; 2]; [0; 1; 3]; [2; 4; 5]; [3; 5]; [3; 4] ]%nat.

(** * The rest of the orchestration *)

(** ** The end of [main] *)

(** Lines 168 to 172 of [main], on the network as the two tasks have left
    it: [network[alice].payment.match.match_id] and [.from_id] are read,
    then [build_route(network, matchId, doneBy)] is called with the
    default [res].  Reading an attribute of [None] raises
    [AttributeError]. *)
Definition main_route (fuel : nat) (network : list Node) (alice : Z)
    (h : gmap loc (list Z)) : outcome loc * gmap loc (list Z) :=
  match py_index network alice with
  | None => (Raise IndexError, h)
  | Some node =>
      match payment node with
      | None => (Raise AttributeError, h)
      | Some p =>
          match p_match p with
          | None => (Raise AttributeError, h)
          | Some m =>
              let matchId := match_id m in
              let doneBy := from_id m in
              build_route_default fuel network matchId doneBy h
          end
      end
  end.

(** The search that [main] starts (lines 157 to 165): [alice = 2],
    [bob = 8], [amount = 1], on whatever network has been generated. *)
Definition main_get_route `{RandomSource rng} (st : state rng)
    : outcome unit * state rng :=
  let alice := 2 in
  let bob := 8 in
  let amount := 1 in
  get_route st alice bob amount.

(** ** Reading a seed back *)

(** The number a string of binary digits stands for, most significant
    digit first (what [int(s, 2)] gives), from the value [acc] of the
    digits already read. *)
Fixpoint binary_value (acc : Z) (s : string) : Z :=
  match s with
  | EmptyString => acc
  | String c s' =>
      binary_value (2 * acc + (if bool_decide (c = "1"%char) then 1 else 0)) s'
  end.

(** ** More example networks *)

(** Node 0 points to node 1, which points to a node that does not
    exist. *)
Definition broken_network : list Node :=
  [ plain_node 0 {["m" := 1]}; plain_node 1 {["m" := 5]} ].

(** A watched network on which the match never comes. *)
Definition idle_env (k : nat) : list Node := demo_env 0.

(** A watched network whose node 0 loses its payment during the first
    sleep. *)
Definition failing_env (k : nat) : list Node :=
  match k with
  | O => demo_env 0
  | S _ => [ fee_node 0 0; fee_node 1 0 ]
  end.

(** * Properties *)

(** ** The definitions at work *)

Example py_index_last : py_index [10; 20; 30] (-1) = Some 30.
Proof. reflexivity. Qed.

Example py_index_out : py_index [10; 20; 30] 3 = None /\ py_index [10; 20; 30] (-4) = None.
Proof. split; reflexivity. Qed.

Example bin_5 : bin 5 = "0b101".
Proof. reflexivity. Qed.

Example zfill_signed : zfill 5 "-42" = "-0042".
Proof. reflexivity. Qed.

Example zfill_long : zfill 2 "101" = "101".
Proof. reflexivity. Qed.

Example seed_of_5 : slice_from 125 (seed_of 5) = "101" /\ String.length (seed_of 5) = 128%nat.
Proof. split; reflexivity. Qed.

Example build_route_line :
  returned (build_route_default 3 line_network "m" 2 init_heap) = Ret [2; 1; 0].
Proof. reflexivity. Qed.

Example build_route_fresh_list :
  returned (build_route 3 line_network "m" 2 1%nat (<[1%nat := []]> init_heap))
    = Ret [2; 1; 0].
Proof. reflexivity. Qed.

Example build_route_loop :
  returned (build_route_default 4 loop_network "m" 0 init_heap) = Unbounded /\
  deref (snd (build_route_default 4 loop_network "m" 0 init_heap)) res_default
    = [0; 1; 0; 1].
Proof. split; reflexivity. Qed.

Example get_route_same_node :
  get_route demo_state 1 1 5 = (Raise (PyException msg_same_node), demo_state).
Proof. reflexivity. Qed.

Example get_route_out_of_range :
  get_route demo_state 0 3 5 = (Raise (PyException msg_not_connected), demo_state).
Proof. reflexivity. Qed.

Example get_route_negative :
  get_route demo_state (-1) 2 5 = (Raise (PyException msg_not_connected), demo_state).
Proof. reflexivity. Qed.

Example get_route_tasks :
  fst (get_route demo_state 0 2 5) = Ret tt /\
  st_tasks (snd (get_route demo_state 0 2 5)) = [0; 1; 2]%nat.
Proof. split; reflexivity. Qed.

Example check_match_no_stop :
  check_match 5 demo_env 0 3 false 0 = (Ret tt, [Sleep 3; Sleep 3]).
Proof. reflexivity. Qed.

(** ** Heap and route builder lemmas *)

Lemma deref_append_same h res x : deref (append h res x) res = deref h res ++ [x].
Proof. unfold deref, append. by rewrite lookup_insert_eq. Qed.

Lemma deref_append_other h res l x : l <> res -> deref (append h res x) l = deref h l.
Proof. intros Hne. unfold deref, append. by rewrite lookup_insert_ne. Qed.

Lemma deref_appends_same h res l : deref (appends h res l) res = deref h res ++ l.
Proof.
  revert h. induction l as [|x l IH]; intros h; simpl.
  - by rewrite app_nil_r.
  - unfold appends in *. simpl. rewrite IH, deref_append_same.
    by rewrite <- app_assoc.
Qed.

Lemma deref_appends_other h res l r : r <> res -> deref (appends h res l) r = deref h r.
Proof.
  intros Hne. revert h. induction l as [|x l IH]; intros h; [done|].
  unfold appends in *. simpl. rewrite IH. by apply deref_append_other.
Qed.

(** [build_route] does what [visit] says: it appends the visited
    identities to [res], and returns [res] itself. *)
Lemma build_route_visit fuel network matchId current res h :
  build_route fuel network matchId current res h =
    (outcome_of res (snd (visit fuel network matchId current)),
     appends h res (fst (visit fuel network matchId current))).
Proof.
  revert current h. induction fuel as [|fuel IH]; intros current h; [done|].
  simpl. destruct (pointer network matchId current) as [next|e|]; try done.
  destruct (current =? next); [done|].
  rewrite IH. by destruct (visit fuel network matchId next).
Qed.

Lemma chain_visit network matchId c l :
  chain network matchId c l ->
  forall fuel, (length l <= fuel)%nat -> visit fuel network matchId c = (l, Returned).
Proof.
  induction 1 as [c Hp|c n l Hp Hne _ IH]; intros fuel Hfuel;
    (destruct fuel as [|fuel]; [simpl in Hfuel; lia|]); simpl; rewrite Hp.
  - by rewrite Z.eqb_refl.
  - apply Z.eqb_neq in Hne. rewrite Hne, IH; [done|simpl in Hfuel; lia].
Qed.

Lemma follow_chain network matchId k :
  forall c r, follow network matchId k c = Some r ->
  pointer network matchId r = Ret r ->
  exists l, chain network matchId c l /\ (length l <= S k)%nat.
Proof.
  induction k as [|k IH]; intros c r Hf Hr; simpl in Hf.
  - injection Hf as ->. exists [r]. split; [by constructor|simpl; lia].
  - destruct (pointer network matchId c) as [n| |] eqn:Hp; try done.
    destruct (decide (c = n)) as [->|Hne].
    + exists [n]. split; [by constructor|simpl; lia].
    + destruct (IH n r Hf Hr) as (l & Hl & Hlen).
      exists (c :: l). split; [by econstructor|simpl; lia].
Qed.

Lemma chain_head network matchId c l : chain network matchId c l -> head l = Some c.
Proof. by destruct 1. Qed.

Lemma chain_pairs network matchId c l :
  chain network matchId c l ->
  forall i u v, l !! i = Some u -> l !! S i = Some v ->
    pointer network matchId u = Ret v.
Proof.
  induction 1 as [c Hp|c n l Hp Hne Hl IH]; intros i u v Hu Hv.
  - by destruct i.
  - destruct i as [|i]; simpl in *.
    + injection Hu as <-. apply chain_head in Hl.
      destruct l as [|x l]; simpl in *; congruence.
    + by eapply IH.
Qed.

Lemma chain_last network matchId c l :
  chain network matchId c l ->
  exists r, last l = Some r /\ pointer network matchId r = Ret r.
Proof.
  induction 1 as [c Hp|c n l Hp Hne Hl (r & Hr & Hpr)].
  - by exists c.
  - exists r. split; [|done]. destruct l; [done|]. by rewrite last_cons, Hr.
Qed.

(** Only the last node of a chain points to itself. *)
Lemma chain_self_last network matchId c l :
  chain network matchId c l ->
  forall i u, l !! i = Some u -> pointer network matchId u = Ret u ->
    S i = length l.
Proof.
  induction 1 as [c Hp|c n l Hp Hne Hl IH]; intros i u Hu Hpu.
  - destruct i as [|i]; [done|]. by destruct i.
  - destruct i as [|i]; simpl in *.
    + injection Hu as <-. congruence.
    + f_equal. by eapply IH.
Qed.

(** Whatever is reached from [c] and points to itself is the last node of
    the chain. *)
Lemma chain_follow_last network matchId c l :
  chain network matchId c l ->
  forall k x, follow network matchId k c = Some x ->
    pointer network matchId x = Ret x -> last l = Some x.
Proof.
  induction 1 as [c Hp|c n l Hp Hne Hl IH]; intros k x Hf Hx.
  - revert Hf. induction k as [|k IHk]; simpl; [congruence|].
    by rewrite Hp.
  - destruct k as [|k]; simpl in Hf.
    + injection Hf as <-. congruence.
    + rewrite Hp in Hf. destruct l as [|y l]; [inversion Hl|].
      rewrite last_cons. by rewrite (IH k x Hf Hx).
Qed.

(** *** Chains that never end *)

Lemma follow_add network matchId a b c :
  follow network matchId (a + b) c =
    follow network matchId a c ≫= follow network matchId b.
Proof.
  revert c. induction a as [|a IH]; intros c; simpl; [done|].
  destruct (pointer network matchId c); by rewrite ?IH.
Qed.

Lemma follow_self network matchId k c :
  pointer network matchId c = Ret c -> follow network matchId k c = Some c.
Proof. intros Hp. induction k as [|k IH]; simpl; [done|]. by rewrite Hp. Qed.

Lemma follow_cycle_total network matchId p x :
  follow network matchId (S p) x = Some x ->
  forall i, is_Some (follow network matchId i x).
Proof.
  intros Hc i. induction i as [i IH] using lt_wf_ind.
  destruct (le_lt_dec i (S p)) as [Hle|Hgt].
  - replace (S p) with (i + (S p - i))%nat in Hc by lia.
    rewrite follow_add in Hc.
    destruct (follow network matchId i x); [by eexists|done].
  - replace i with (S p + (i - S p))%nat by lia.
    rewrite follow_add, Hc. simpl. apply IH. lia.
Qed.

Lemma follow_cycle_on network matchId p x i y :
  follow network matchId (S p) x = Some x ->
  follow network matchId i x = Some y ->
  exists i', follow network matchId i' y = Some x.
Proof.
  intros Hc. revert y. induction i as [i IH] using lt_wf_ind. intros y Hy.
  destruct (le_lt_dec i (S p)) as [Hle|Hgt].
  - exists (S p - i)%nat.
    replace (S p) with (i + (S p - i))%nat in Hc at 1 by lia.
    rewrite follow_add, Hy in Hc. done.
  - replace i with (S p + (i - S p))%nat in Hy by lia.
    rewrite follow_add, Hc in Hy. simpl in Hy.
    eapply (IH (i - S p)%nat); [lia|done].
Qed.

Lemma cyclic_endless network matchId start :
  cyclic network matchId start -> endless network matchId start.
Proof.
  intros (j & p & x & Hj & Hc & Hroot) k.
  assert (Hall : forall i, is_Some (follow network matchId i start)).
  { intros i. destruct (le_lt_dec i j) as [Hle|Hgt].
    - replace j with (i + (j - i))%nat in Hj by lia.
      rewrite follow_add in Hj.
      destruct (follow network matchId i start); [by eexists|done].
    - replace i with (j + (i - j))%nat by lia.
      rewrite follow_add, Hj. simpl. by eapply follow_cycle_total. }
  destruct (Hall k) as [y Hy]. destruct (Hall (S k)) as [n Hn].
  replace (S k) with (k + 1)%nat in Hn by lia.
  rewrite follow_add, Hy in Hn. simpl in Hn.
  destruct (pointer network matchId y) as [n'| |] eqn:Hp; try done.
  injection Hn as ->. exists y, n. split; [done|]. split; [done|].
  intros ->. destruct (le_lt_dec j k) as [Hle|Hgt].
  - apply (Hroot (k - j)%nat y); [|done].
    replace k with (j + (k - j))%nat in Hy by lia.
    by rewrite follow_add, Hj in Hy.
  - apply (Hroot 0%nat x); [done|].
    replace j with (k + (j - k))%nat in Hj by lia.
    rewrite follow_add, Hy in Hj. simpl in Hj.
    rewrite (follow_self _ _ _ _ Hp) in Hj. by injection Hj as <-.
Qed.

Lemma endless_step network matchId c :
  endless network matchId c ->
  exists n, pointer network matchId c = Ret n /\ n <> c /\ endless network matchId n.
Proof.
  intros He. destruct (He 0%nat) as (y & n & Hy & Hp & Hne).
  simpl in Hy. injection Hy as <-. exists n. split; [done|]. split; [done|].
  intros k. destruct (He (S k)) as (y & n' & Hy & Hp' & Hne').
  simpl in Hy. rewrite Hp in Hy. by exists y, n'.
Qed.

(** On an endless chain every step of the fuel appends one identity, and
    the run neither returns nor raises. *)
Lemma endless_visit network matchId fuel :
  forall c, endless network matchId c ->
  snd (visit fuel network matchId c) = OutOfFuel /\
  length (fst (visit fuel network matchId c)) = fuel.
Proof.
  induction fuel as [|fuel IH]; intros c He; [done|].
  destruct (endless_step _ _ _ He) as (n & Hp & Hne & Hn).
  simpl. rewrite Hp. assert ((c =? n) = false) as -> by (apply Z.eqb_neq; congruence).
  destruct (IH n Hn) as [Hs Hl]. destruct (visit fuel network matchId n) as [l s].
  simpl in *. by rewrite Hl.
Qed.

(** [build_route] raises nothing but the errors of its two lookups. *)
Lemma visit_raises fuel network matchId c e :
  snd (visit fuel network matchId c) = Raised e -> e = IndexError \/ e = KeyError.
Proof.
  revert c. induction fuel as [|fuel IH]; intros c; simpl; [done|].
  destruct (pointer network matchId c) as [n|e'|] eqn:Hp; simpl; try done.
  - destruct (c =? n); [done|].
    specialize (IH n). destruct (visit fuel network matchId n). apply IH.
  - intros [= <-]. unfold pointer in Hp.
    destruct (py_index network c) as [node|]; [|injection Hp as <-; by left].
    destruct (match_data node !! matchId); [done|injection Hp as <-; by right].
Qed.

Lemma build_route_kind fuel network matchId c res h k :
  ~ fails_with (fst (build_route fuel network matchId c res h)) k.
Proof.
  rewrite build_route_visit. simpl. intros (e & He & Hk).
  destruct (snd (visit fuel network matchId c)) as [|e'|] eqn:Hs; try done.
  injection He as ->. by destruct (visit_raises _ _ _ _ _ Hs) as [->| ->].
Qed.

Lemma loop_network_cyclic : cyclic loop_network "m" 0.
Proof.
  exists 0%nat, 1%nat, 0. split; [done|]. split; [done|].
  intros i y Hy.
  assert (Hcases : y = 0 \/ y = 1).
  { assert (H : forall k z, (follow loop_network "m" k 0 = Some z -> z = 0 \/ z = 1) /\
                            (follow loop_network "m" k 1 = Some z -> z = 0 \/ z = 1)).
    { intros k. induction k as [|k IH]; intros z; simpl.
      - split; intros [= <-]; auto.
      - split; apply (IH z). }
    destruct (H i y) as [H0 _]. by apply H0. }
  by destruct Hcases as [-> | ->].
Qed.

(** ** The route builder *)

Lemma returned_default fuel network matchId start h :
  returned (build_route_default fuel network matchId start h) =
    match snd (visit fuel network matchId start) with
    | Returned =>
        Ret (deref h res_default ++ fst (visit fuel network matchId start))
    | Raised e => Raise e
    | OutOfFuel => Unbounded
    end.
Proof.
  unfold returned, build_route_default. rewrite build_route_visit. simpl.
  destruct (snd (visit fuel network matchId start)); simpl; [|done..].
  by rewrite deref_appends_same.
Qed.

(** C1. When the pointers of [matchId] lead from [start] to a node [r]
    that points to itself, [build_route(network, matchId, start)], called
    while the default list is still empty, returns a route that begins
    with [start], in which every node is followed by the node it points
    to, and which ends with [r], the only node of the route pointing to
    itself; if [start] points to itself the route is [[start]].  Any
    recursion depth above the number of pointers followed is enough. *)
Theorem build_route_follows_pointers network matchId start k r :
  follow network matchId k start = Some r ->
  pointer network matchId r = Ret r ->
  exists route,
    (forall fuel, (k < fuel)%nat ->
      returned (build_route_default fuel network matchId start init_heap)
        = Ret route) /\
    head route = Some start /\
    (forall i u v, route !! i = Some u -> route !! S i = Some v ->
      pointer network matchId u = Ret v) /\
    last route = Some r /\
    (forall i u, route !! i = Some u -> pointer network matchId u = Ret u ->
      S i = length route) /\
    (pointer network matchId start = Ret start -> route = [start]).
Proof.
  intros Hf Hr. destruct (follow_chain _ _ _ _ _ Hf Hr) as (route & Hc & Hlen).
  exists route. repeat split.
  - intros fuel Hfuel. rewrite returned_default.
    rewrite (chain_visit _ _ _ _ Hc fuel) by lia. done.
  - by eapply chain_head.
  - by eapply chain_pairs.
  - by eapply chain_follow_last.
  - by eapply chain_self_last.
  - intros Hs. destruct Hc as [c Hp|c n l Hp Hne Hl]; [done|congruence].
Qed.

Lemma build_route_follows_pointers_witness :
  exists route,
    (forall fuel, (2 < fuel)%nat ->
      returned (build_route_default fuel line_network "m" 2 init_heap)
        = Ret route) /\
    head route = Some 2 /\
    (forall i u v, route !! i = Some u -> route !! S i = Some v ->
      pointer line_network "m" u = Ret v) /\
    last route = Some 0 /\
    (forall i u, route !! i = Some u -> pointer line_network "m" u = Ret u ->
      S i = length route) /\
    (pointer line_network "m" 2 = Ret 2 -> route = [2]).
Proof.
  apply (build_route_follows_pointers line_network "m" 2 2%nat 0); reflexivity.
Defined.

(** C2, as the code has it.  [build_route] has no cycle guard: when the
    pointers from the start lead into a cycle without a node pointing to
    itself, the call neither returns nor raises at any recursion depth,
    and every level of the recursion appends one more identity to
    [res]. *)
Theorem build_route_cycle_unbounded network matchId start res h fuel :
  cyclic network matchId start ->
  fst (build_route fuel network matchId start res h) = Unbounded /\
  length (deref (snd (build_route fuel network matchId start res h)) res)
    = (length (deref h res) + fuel)%nat.
Proof.
  intros Hc. apply cyclic_endless in Hc.
  destruct (endless_visit network matchId fuel start Hc) as [Hs Hl].
  rewrite build_route_visit. simpl. rewrite Hs. split; [done|].
  by rewrite deref_appends_same, length_app, Hl.
Qed.

Lemma build_route_cycle_unbounded_witness :
  fst (build_route 5 loop_network "m" 0 res_default init_heap) = Unbounded /\
  length (deref (snd (build_route 5 loop_network "m" 0 res_default init_heap))
            res_default)
    = (length (deref init_heap res_default) + 5)%nat.
Proof.
  apply (build_route_cycle_unbounded loop_network "m" 0 res_default init_heap 5).
  exact loop_network_cyclic.
Defined.

(** C2 as stated fails: on two nodes pointing at each other no recursion
    depth makes [build_route] fail with an Integrity error. *)
Lemma build_route_cycle_no_integrity :
  cyclic loop_network "m" 0 /\
  ~ exists fuel,
      fails_with (fst (build_route_default fuel loop_network "m" 0 init_heap))
        Integrity.
Proof.
  split; [exact loop_network_cyclic|].
  intros [fuel Hfail]. by apply build_route_kind in Hfail.
Qed.

(** C4, as the code has it.  [build_route] does not look for a match and
    has no error of its own: when no node holds an entry for [matchId],
    the call fails with the [KeyError] of the dictionary lookup if [start]
    indexes a node and with the [IndexError] of the list otherwise, leaves
    the heap as it is, and this is not a NotMatched error. *)
Theorem build_route_no_match network matchId start res h fuel :
  no_match network matchId ->
  build_route (S fuel) network matchId start res h =
    (Raise (match py_index network start with Some _ => KeyError | None => IndexError end), h) /\
  ~ fails_with (fst (build_route (S fuel) network matchId start res h)) NotMatched.
Proof.
  intros Hno. split; [|apply build_route_kind].
  simpl. unfold pointer.
  destruct (py_index network start) as [node|] eqn:Hidx; [|done].
  assert (Hin : node ∈ network).
  { unfold py_index in Hidx.
    destruct ((0 <=? start) && (start <? Z.of_nat (length network)));
      [by eapply list_elem_of_lookup_2|].
    destruct ((- Z.of_nat (length network) <=? start) && (start <? 0));
      [by eapply list_elem_of_lookup_2|done]. }
  destruct (Hno node Hin) as [-> _]. done.
Qed.

Lemma build_route_no_match_witness :
  build_route 1 blank_network "m" 0 res_default init_heap =
    (Raise (match py_index blank_network 0 with Some _ => KeyError | None => IndexError end),
     init_heap) /\
  ~ fails_with (fst (build_route 1 blank_network "m" 0 res_default init_heap))
      NotMatched.
Proof.
  apply (build_route_no_match blank_network "m" 0 res_default init_heap 0).
  intros node Hin. apply list_elem_of_singleton in Hin. subst node. done.
Defined.

(** C4 as stated fails: on a network where nothing has been recorded the
    call fails, but with [KeyError], at every recursion depth. *)
Lemma build_route_not_NotMatched :
  no_match blank_network "m" /\
  ~ exists fuel,
      fails_with (fst (build_route_default fuel blank_network "m" 0 init_heap))
        NotMatched.
Proof.
  split.
  - intros node Hin. apply list_elem_of_singleton in Hin. subst node. done.
  - intros [fuel Hfail]. by apply build_route_kind in Hfail.
Qed.

(** C10 on the code.  The list that [build_route] fills when [res] is
    omitted is created once and kept between the calls.  For every input
    with a route, the first call returns the route, the second call with
    the same arguments returns the route twice over, in the very list
    object the first call returned, whose content has thereby changed. *)
Theorem build_route_default_accumulates network matchId start k r :
  follow network matchId k start = Some r ->
  pointer network matchId r = Ret r ->
  exists route, route <> [] /\
    forall fuel, (k < fuel)%nat ->
      let call1 := build_route_default fuel network matchId start init_heap in
      let call2 := build_route_default fuel network matchId start (snd call1) in
      returned call1 = Ret route /\
      returned call2 = Ret (route ++ route) /\
      fst call2 = fst call1 /\
      returned (fst call1, snd call2) = Ret (route ++ route).
Proof.
  intros Hf Hr. destruct (follow_chain _ _ _ _ _ Hf Hr) as (route & Hc & Hlen).
  exists route. split; [by destruct Hc|].
  intros fuel Hfuel call1 call2.
  assert (Hv : visit fuel network matchId start = (route, Returned))
    by (apply (chain_visit _ _ _ _ Hc); lia).
  assert (H1 : call1 = (Ret res_default, appends init_heap res_default route)).
  { unfold call1, build_route_default. by rewrite build_route_visit, Hv. }
  assert (H2 : call2 = (Ret res_default,
                        appends (appends init_heap res_default route) res_default route)).
  { unfold call2, build_route_default. by rewrite build_route_visit, Hv, H1. }
  rewrite H1, H2. unfold returned. simpl.
  by rewrite !deref_appends_same.
Qed.

Lemma build_route_default_accumulates_witness :
  exists route, route <> [] /\
    forall fuel, (0 < fuel)%nat ->
      let call1 := build_route_default fuel line_network "m" 0 init_heap in
      let call2 := build_route_default fuel line_network "m" 0 (snd call1) in
      returned call1 = Ret route /\
      returned call2 = Ret (route ++ route) /\
      fst call2 = fst call1 /\
      returned (fst call1, snd call2) = Ret (route ++ route).
Proof.
  apply (build_route_default_accumulates line_network "m" 0 0%nat 0); reflexivity.
Defined.

(** The same on one node pointing to itself: the first call returns
    [[0]], the second [[0; 0]]. *)
Lemma build_route_twice :
  let call1 := build_route_default 1 line_network "m" 0 init_heap in
  let call2 := build_route_default 1 line_network "m" 0 (snd call1) in
  returned call1 = Ret [0] /\ returned call2 = Ret [0; 0].
Proof. by vm_compute. Qed.

(** ** Strings of binary digits *)

Lemma length_append (a b : string) :
  String.length (a +:+ b) = (String.length a + String.length b)%nat.
Proof. induction a as [|c a IH]; simpl; [done|]. by rewrite IH. Qed.

Lemma is_binary_append (a b : string) :
  is_binary (a +:+ b) = is_binary a && is_binary b.
Proof.
  induction a as [|c a IH]; simpl; [done|]. by rewrite IH, andb_assoc.
Qed.

Lemma is_binary_get s :
  is_binary s = true ->
  forall i c, String.get i s = Some c -> c = "0"%char \/ c = "1"%char.
Proof.
  induction s as [|c' s IH]; intros Hb i c Hget; [by destruct i|].
  simpl in Hb. apply andb_prop in Hb as [Hc Hs].
  destruct i as [|i]; simpl in Hget.
  - injection Hget as <-. apply orb_prop in Hc as [Hc|Hc];
      apply bool_decide_eq_true in Hc; auto.
  - by eapply IH.
Qed.

Lemma length_zeros n : String.length (zeros n) = n.
Proof. induction n as [|n IH]; simpl; [done|]. by rewrite IH. Qed.

Lemma is_binary_zeros n : is_binary (zeros n) = true.
Proof. induction n as [|n IH]; simpl; done. Qed.

Lemma length_bits p : String.length (bits p) = Pos.size_nat p.
Proof.
  induction p as [p IH|p IH|]; simpl; [| |done];
    rewrite length_append, IH; simpl; lia.
Qed.

Lemma is_binary_bits p : is_binary (bits p) = true.
Proof.
  induction p as [p IH|p IH|]; simpl; [| |done];
    by rewrite is_binary_append, IH.
Qed.

(** The first digit of a positive number is [1]: never a sign. *)
Lemma bits_head p : exists rest, bits p = String "1" rest.
Proof.
  induction p as [p [rest IH]|p [rest IH]|]; simpl; [| |by eexists];
    rewrite IH; simpl; by eexists.
Qed.

Lemma size_nat_bound p : forall n : nat,
  Z.pos p < 2 ^ Z.of_nat n -> (Pos.size_nat p <= n)%nat.
Proof.
  induction p as [p IH|p IH|]; intros n Hlt; simpl.
  - destruct n as [|n]; [simpl in Hlt; lia|].
    rewrite Nat2Z.inj_succ, Z.pow_succ_r in Hlt by lia.
    specialize (IH n). lia.
  - destruct n as [|n]; [simpl in Hlt; lia|].
    rewrite Nat2Z.inj_succ, Z.pow_succ_r in Hlt by lia.
    specialize (IH n). lia.
  - destruct n as [|n]; [simpl in Hlt; lia|lia].
Qed.

(** [zfill] on a string that does not start with a sign. *)
Lemma zfill_unsigned width c rest :
  is_sign c = false ->
  zfill width (String c rest) =
    zeros (width - String.length (String c rest)) +:+ String c rest.
Proof. intros Hc. unfold zfill. by rewrite Hc. Qed.

(** The seed of every 128-bit draw has 128 binary digits. *)
Lemma seed_of_128 n :
  0 <= n < 2 ^ 128 ->
  String.length (seed_of n) = 128%nat /\ is_binary (seed_of n) = true.
Proof.
  intros [Hlo Hhi]. destruct n as [|p|p]; [by vm_compute| |lia].
  unfold seed_of. change (slice_from 2 (bin (Z.pos p))) with (bits p).
  destruct (bits_head p) as [rest Hrest].
  assert (Hlen : (String.length (bits p) <= 128)%nat).
  { rewrite length_bits. apply size_nat_bound. exact Hhi. }
  rewrite Hrest in *. rewrite zfill_unsigned by done.
  rewrite length_append, length_zeros, is_binary_append, is_binary_zeros.
  rewrite <- Hrest, is_binary_bits. rewrite Hrest. split; [lia|done].
Qed.

(** ** [get_route] *)

Section GetRoute.
Context {rng : Type} `{RandomSource rng}.

Lemma py_index_in_range {A} (l : list A) (i : Z) :
  0 <= i < Z.of_nat (length l) -> py_index l i = l !! Z.to_nat i.
Proof.
  intros Hi. unfold py_index.
  assert ((0 <=? i) && (i <? Z.of_nat (length l)) = true) as -> by lia. done.
Qed.

(** The guard of [get_route] passes exactly on two distinct endpoints
    in range. *)
Lemma get_route_guard st alice bob amount :
  in_range st alice -> in_range st bob -> alice <> bob ->
  exists node_alice node_bob,
    st_network st !! Z.to_nat alice = Some node_alice /\
    st_network st !! Z.to_nat bob = Some node_bob /\
    let seed := fst (generate_seed (st_rng st)) in
    let g1 := snd (generate_seed (st_rng st)) in
    let counter := fst (randint 64 128 g1) in
    let fees := maxfees node_bob + maxfees node_alice in
    let network2 :=
      alter (set_payment (new_Payment seed amount false true bob alice fees counter))
        (Z.to_nat alice)
        (alter (set_payment (new_Payment seed amount true false bob alice fees counter))
           (Z.to_nat bob) (st_network st)) in
    get_route st alice bob amount =
      (Ret tt, mkState network2 (st_tasks st ++ seq 0 (length network2))
                 (snd (randint 64 128 g1))).
Proof.
  unfold in_range. intros Ha Hb Hne.
  destruct (lookup_lt_is_Some_2 (st_network st) (Z.to_nat alice)) as [na Hna]; [lia|].
  destruct (lookup_lt_is_Some_2 (st_network st) (Z.to_nat bob)) as [nb Hnb]; [lia|].
  exists na, nb. split; [done|]. split; [done|]. simpl.
  unfold get_route.
  assert ((0 <=? alice) && (alice <? Z.of_nat (length (st_network st))) = true)
    as -> by lia.
  assert ((0 <=? bob) && (bob <? Z.of_nat (length (st_network st))) = true)
    as -> by lia.
  assert ((bob =? alice) = false) as -> by lia. simpl.
  destruct (generate_seed (st_rng st)) as [seed g1]. simpl.
  destruct (randint 64 128 g1) as [counter g2]. simpl.
  rewrite !py_index_in_range by lia. by rewrite Hna, Hnb.
Qed.

Lemma get_route_bad_range st alice bob amount :
  ~ in_range st alice \/ ~ in_range st bob ->
  get_route st alice bob amount = (Raise (PyException msg_not_connected), st).
Proof.
  unfold in_range, get_route. intros Hbad.
  assert (negb ((0 <=? alice) && (alice <? Z.of_nat (length (st_network st))))
          || negb ((0 <=? bob) && (bob <? Z.of_nat (length (st_network st)))) = true)
    as -> by lia.
  done.
Qed.

Lemma get_route_same st alice amount :
  in_range st alice ->
  get_route st alice alice amount = (Raise (PyException msg_same_node), st).
Proof.
  unfold in_range, get_route. intros Ha.
  assert ((0 <=? alice) && (alice <? Z.of_nat (length (st_network st))) = true)
    as -> by lia.
  simpl. by rewrite Z.eqb_refl.
Qed.

(** A call that succeeds was made on two distinct endpoints in range. *)
Lemma get_route_ret st alice bob amount st' :
  get_route st alice bob amount = (Ret tt, st') ->
  in_range st alice /\ in_range st bob /\ alice <> bob.
Proof.
  intros Hret.
  destruct (decide (in_range st alice)) as [Ha|Ha];
    [|rewrite get_route_bad_range in Hret by auto; done].
  destruct (decide (in_range st bob)) as [Hb|Hb];
    [|rewrite get_route_bad_range in Hret by auto; done].
  destruct (decide (alice = bob)) as [->|Hne];
    [rewrite get_route_same in Hret by auto; done|done].
Qed.

(** The two payments a successful call leaves on its endpoints. *)
Lemma get_route_payments st alice bob amount st' :
  get_route st alice bob amount = (Ret tt, st') ->
  exists node_alice node_bob,
    st_network st !! Z.to_nat alice = Some node_alice /\
    st_network st !! Z.to_nat bob = Some node_bob /\
    let seed := fst (generate_seed (st_rng st)) in
    let counter := fst (randint 64 128 (snd (generate_seed (st_rng st)))) in
    let fees := maxfees node_bob + maxfees node_alice in
    payment <$> st_network st' !! Z.to_nat alice =
      Some (Some (new_Payment seed amount false true bob alice fees counter)) /\
    payment <$> st_network st' !! Z.to_nat bob =
      Some (Some (new_Payment seed amount true false bob alice fees counter)).
Proof.
  intros Hret. destruct (get_route_ret _ _ _ _ _ Hret) as (Ha & Hb & Hne).
  destruct (get_route_guard st alice bob amount Ha Hb Hne)
    as (na & nb & Hna & Hnb & Heq).
  exists na, nb. split; [done|]. split; [done|]. simpl in *.
  rewrite Heq in Hret. injection Hret as <-. simpl.
  unfold in_range in *.
  assert (Z.to_nat alice <> Z.to_nat bob) by lia.
  split.
  - rewrite list_lookup_alter_eq, list_lookup_alter_ne, Hna by done. done.
  - rewrite list_lookup_alter_ne, list_lookup_alter_eq, Hnb by done. done.
Qed.
End GetRoute.

Lemma counter_source_ok : RandomSourceOk Z.
Proof.
  split; simpl; unfold counter_getrandbits, counter_randint; simpl.
  - intros k g Hk. apply Z.mod_pos_bound. by apply Z.pow_pos_nonneg.
  - intros a b g Hab. pose proof (Z.mod_pos_bound g (b - a + 1)). lia.
Qed.

(** C3. [get_route] fails with an InvalidEndpoint error exactly when one
    of the endpoints is outside [0, len(network)) or both are the same
    node, and then it leaves the state as it was: the nodes keep their
    payments, no task is created, no random number is drawn. *)
Theorem get_route_invalid_endpoint {rng : Type} `{RandomSource rng}
    (st : state rng) (alice bob amount : Z) :
  (fails_with (fst (get_route st alice bob amount)) InvalidEndpoint <->
     ~ in_range st alice \/ ~ in_range st bob \/ alice = bob) /\
  (fails_with (fst (get_route st alice bob amount)) InvalidEndpoint ->
     snd (get_route st alice bob amount) = st).
Proof.
  destruct (decide (in_range st alice)) as [Ha|Ha].
  2: { rewrite get_route_bad_range by auto. simpl. split; [|done].
       split; [auto|]. intros _. by eexists. }
  destruct (decide (in_range st bob)) as [Hb|Hb].
  2: { rewrite get_route_bad_range by auto. simpl. split; [|done].
       split; [auto|]. intros _. by eexists. }
  destruct (decide (alice = bob)) as [->|Hne].
  { rewrite get_route_same by auto. simpl. split; [|done].
    split; [auto|]. intros _. by eexists. }
  destruct (get_route_guard st alice bob amount Ha Hb Hne)
    as (na & nb & _ & _ & Heq).
  simpl in Heq. rewrite Heq. simpl. split.
  - split; [by intros (e & He & _)|]. intros [?|[?|?]]; done.
  - by intros (e & He & _).
Qed.

(** C7. After a successful [get_route] both endpoints carry a payment,
    and the two payments have the same hop-budget counter, the integer
    that [randint(64, 128)] has drawn: it lies between 64 and 128. *)
Theorem get_route_counter {rng : Type} `{RandomSourceOk rng}
    (st : state rng) (alice bob amount : Z) (st' : state rng) :
  get_route st alice bob amount = (Ret tt, st') ->
  exists pa pb counter,
    payment <$> st_network st' !! Z.to_nat alice = Some (Some pa) /\
    payment <$> st_network st' !! Z.to_nat bob = Some (Some pb) /\
    counter = fst (randint 64 128 (snd (generate_seed (st_rng st)))) /\
    64 <= counter <= 128 /\
    p_counter pa = counter /\ p_counter pb = counter.
Proof.
  intros Hret.
  destruct (get_route_payments _ _ _ _ _ Hret) as (na & nb & _ & _ & Hpa & Hpb).
  simpl in *. eexists _, _, _. split; [exact Hpa|]. split; [exact Hpb|].
  split; [done|]. split; [|done]. by apply randint_range.
Qed.

Lemma get_route_counter_witness :
  exists pa pb counter,
    payment <$> st_network (snd (get_route demo_state 0 2 1)) !! Z.to_nat 0
      = Some (Some pa) /\
    payment <$> st_network (snd (get_route demo_state 0 2 1)) !! Z.to_nat 2
      = Some (Some pb) /\
    counter = fst (randint 64 128 (snd (generate_seed (st_rng demo_state)))) /\
    64 <= counter <= 128 /\
    p_counter pa = counter /\ p_counter pb = counter.
Proof.
  apply (@get_route_counter Z counter_source counter_source_ok demo_state 0 2 1).
  vm_compute. reflexivity.
Defined.

(** C8. Every seed that [generate_seed] returns has exactly 128
    characters, each of them ['0'] or ['1'], whatever number is drawn;
    and [get_route], called on two distinct endpoints in range, succeeds
    and puts the seed it has generated into the payments of both
    endpoints.  No other call of [get_route] succeeds. *)
Theorem generate_seed_128_bits {rng : Type} `{RandomSourceOk rng} (g : rng) :
  (String.length (fst (generate_seed g)) = 128%nat /\
   forall i c, String.get i (fst (generate_seed g)) = Some c ->
     c = "0"%char \/ c = "1"%char) /\
  (forall (st : state rng) alice bob amount,
     st_rng st = g ->
     in_range st alice -> in_range st bob -> alice <> bob ->
     exists st' pa pb,
       get_route st alice bob amount = (Ret tt, st') /\
       payment <$> st_network st' !! Z.to_nat alice = Some (Some pa) /\
       payment <$> st_network st' !! Z.to_nat bob = Some (Some pb) /\
       p_seed pa = fst (generate_seed g) /\ p_seed pb = fst (generate_seed g)) /\
  (forall (st : state rng) alice bob amount st',
     get_route st alice bob amount = (Ret tt, st') ->
     in_range st alice /\ in_range st bob /\ alice <> bob).
Proof.
  split; [|split].
  - pose proof (getrandbits_range 128 g) as Hr.
    unfold generate_seed. destruct (getrandbits 128 g) as [n g']. simpl in *.
    destruct (seed_of_128 n) as [Hlen Hbin]; [lia|].
    split; [done|]. by apply is_binary_get.
  - intros st alice bob amount <- Ha Hb Hne.
    destruct (get_route_guard st alice bob amount Ha Hb Hne)
      as (na & nb & _ & _ & Heq).
    simpl in Heq. eexists. 
    destruct (get_route_payments _ _ _ _ _ Heq) as (na' & nb' & _ & _ & Hpa & Hpb).
    simpl in *. eexists _, _. split; [exact Heq|].
    split; [exact Hpa|]. split; [exact Hpb|]. done.
  - intros st alice bob amount st' Hret. by eapply get_route_ret.
Qed.

Lemma generate_seed_128_bits_witness :
  (String.length (fst (generate_seed (st_rng demo_state))) = 128%nat /\
   forall i c, String.get i (fst (generate_seed (st_rng demo_state))) = Some c ->
     c = "0"%char \/ c = "1"%char) /\
  exists st' pa pb,
    get_route demo_state 0 2 1 = (Ret tt, st') /\
    payment <$> st_network st' !! Z.to_nat 0 = Some (Some pa) /\
    payment <$> st_network st' !! Z.to_nat 2 = Some (Some pb) /\
    p_seed pa = fst (generate_seed (st_rng demo_state)) /\
    p_seed pb = fst (generate_seed (st_rng demo_state)).
Proof.
  destruct (@generate_seed_128_bits Z counter_source counter_source_ok
              (st_rng demo_state)) as (Hseed & Hinstall & _).
  split; [exact Hseed|].
  apply (Hinstall demo_state 0 2 1);
    [reflexivity|unfold in_range; simpl; lia|unfold in_range; simpl; lia|lia].
Defined.

(** C9. After a successful [get_route] the payment on Alice's node has
    the Alice-side flag alone, the payment on Bob's node has the Bob-side
    flag alone, and both carry the same fee budget, the sum
    [node_bob.maxfees + node_alice.maxfees] of the two endpoints as they
    were before the call. *)
Theorem get_route_roles_and_fees {rng : Type} `{RandomSource rng}
    (st : state rng) (alice bob amount : Z) (st' : state rng) :
  get_route st alice bob amount = (Ret tt, st') ->
  exists pa pb node_alice node_bob,
    st_network st !! Z.to_nat alice = Some node_alice /\
    st_network st !! Z.to_nat bob = Some node_bob /\
    payment <$> st_network st' !! Z.to_nat alice = Some (Some pa) /\
    payment <$> st_network st' !! Z.to_nat bob = Some (Some pb) /\
    (p_is_alice pa = true /\ p_is_bob pa = false) /\
    (p_is_bob pb = true /\ p_is_alice pb = false) /\
    p_fees pa = maxfees node_bob + maxfees node_alice /\
    p_fees pb = maxfees node_bob + maxfees node_alice.
Proof.
  intros Hret.
  destruct (get_route_payments _ _ _ _ _ Hret) as (na & nb & Hna & Hnb & Hpa & Hpb).
  simpl in *. eexists _, _, na, nb.
  split; [done|]. split; [done|]. split; [exact Hpa|]. split; [exact Hpb|]. done.
Qed.

Lemma get_route_roles_and_fees_witness :
  exists pa pb node_alice node_bob,
    st_network demo_state !! Z.to_nat 0 = Some node_alice /\
    st_network demo_state !! Z.to_nat 2 = Some node_bob /\
    payment <$> st_network (snd (get_route demo_state 0 2 1)) !! Z.to_nat 0
      = Some (Some pa) /\
    payment <$> st_network (snd (get_route demo_state 0 2 1)) !! Z.to_nat 2
      = Some (Some pb) /\
    (p_is_alice pa = true /\ p_is_bob pa = false) /\
    (p_is_bob pb = true /\ p_is_alice pb = false) /\
    p_fees pa = maxfees node_bob + maxfees node_alice /\
    p_fees pb = maxfees node_bob + maxfees node_alice.
Proof.
  apply (@get_route_roles_and_fees Z counter_source demo_state 0 2 1).
  vm_compute. reflexivity.
Defined.

(** ** [check_match] *)

Section CheckMatch.
Variable env : nat -> list Node.
Variables fromNode checkTime : Z.
Variable stop : bool.

(** While the match is unset the watcher only sleeps. *)
Lemma check_match_unset fuel : forall k,
  (forall j, (k <= j < k + fuel)%nat -> match_of (env j) fromNode = Ret None) ->
  check_match fuel env fromNode checkTime stop k =
    (Unbounded, replicate fuel (Sleep checkTime)).
Proof.
  induction fuel as [|fuel IH]; intros k Hun; [done|].
  simpl. rewrite (Hun k) by lia. rewrite IH; [done|].
  intros j Hj. apply Hun. lia.
Qed.

(** At the first test that sees the match the watcher ends, having slept
    once per earlier test. *)
Lemma check_match_set n : forall k m fuel,
  (forall j, (k <= j < k + n)%nat -> match_of (env j) fromNode = Ret None) ->
  match_of (env (k + n)) fromNode = Ret (Some m) ->
  (n < fuel)%nat ->
  check_match fuel env fromNode checkTime stop k =
    (Ret tt, replicate n (Sleep checkTime) ++
             (if stop then stop_all_nodes (env (k + n)) else [])).
Proof.
  induction n as [|n IH]; intros k m fuel Hun Hset Hfuel;
    (destruct fuel as [|fuel]; [lia|]); simpl.
  - rewrite Nat.add_0_r in Hset. rewrite Hset. by rewrite Nat.add_0_r.
  - rewrite (Hun k) by lia.
    rewrite (IH (S k) m fuel); [| |by replace (S k + n)%nat with (k + S n)%nat by lia|lia].
    + by replace (S k + n)%nat with (k + S n)%nat by lia.
    + intros j Hj. apply Hun. lia.
Qed.

(** A call of [stop] in the trace comes from a test that saw the match,
    after tests that all saw it unset, with [stop] true. *)
Lemma check_match_stop_inv fuel : forall k i,
  StopNode i ∈ snd (check_match fuel env fromNode checkTime stop k) ->
  exists n m,
    (forall j, (k <= j < k + n)%nat -> match_of (env j) fromNode = Ret None) /\
    match_of (env (k + n)) fromNode = Ret (Some m) /\
    stop = true.
Proof.
  induction fuel as [|fuel IH]; intros k i Hin; simpl in Hin.
  - by apply not_elem_of_nil in Hin.
  - destruct (match_of (env k) fromNode) as [[m|]|e|] eqn:Hk; simpl in Hin.
    + exists 0%nat, m. split; [intros j Hj; lia|].
      rewrite Nat.add_0_r. split; [done|].
      destruct stop; [done|]. by apply not_elem_of_nil in Hin.
    + destruct (check_match fuel env fromNode checkTime stop (S k)) as [o tr] eqn:Hc.
      simpl in Hin. apply elem_of_cons in Hin as [Hin|Hin]; [done|].
      destruct (IH (S k) i) as (n & m & Hun & Hset & Hstop); [by rewrite Hc|].
      exists (S n), m. split; [|split; [|done]].
      * intros j Hj. destruct (decide (j = k)) as [->|Hne]; [done|].
        apply Hun. lia.
      * by replace (k + S n)%nat with (S k + n)%nat by lia.
    + by apply not_elem_of_nil in Hin.
    + by apply not_elem_of_nil in Hin.
Qed.

Lemma stop_all_nodes_all network i :
  StopNode i ∈ stop_all_nodes network <-> (i < length network)%nat.
Proof.
  unfold stop_all_nodes. rewrite list_elem_of_fmap. split.
  - intros (j & [= ->] & Hj). apply elem_of_seq in Hj. lia.
  - intros Hi. exists i. split; [done|]. apply elem_of_seq. lia.
Qed.

Lemma match_of_nonempty network m :
  match_of network fromNode = Ret m -> (0 < length network)%nat.
Proof.
  unfold match_of, py_index. destruct network; simpl; [|lia].
  by repeat case_match.
Qed.

(** C6. [check_match] calls [stop] on a node only after a test that found
    the match set, all earlier tests having found it unset; and when the
    match is first seen set at the [n]-th test, the watcher returns at
    that test, after [n] sleeps, and has then called [stop] on every node
    of the network if and only if its parameter [stop] is true (with
    [stop] false it has called it on none). *)
Theorem check_match_stops_on_match :
  (forall fuel i,
     StopNode i ∈ snd (check_match fuel env fromNode checkTime stop 0) ->
     exists n m,
       (forall j, (j < n)%nat -> match_of (env j) fromNode = Ret None) /\
       match_of (env n) fromNode = Ret (Some m)) /\
  (forall n m,
     (forall j, (j < n)%nat -> match_of (env j) fromNode = Ret None) ->
     match_of (env n) fromNode = Ret (Some m) ->
     (forall fuel, (fuel <= n)%nat ->
        check_match fuel env fromNode checkTime stop 0 =
          (Unbounded, replicate fuel (Sleep checkTime))) /\
     (forall fuel, (n < fuel)%nat ->
        let run := check_match fuel env fromNode checkTime stop 0 in
        fst run = Ret tt /\
        snd run = replicate n (Sleep checkTime) ++
                  (if stop then stop_all_nodes (env n) else []) /\
        ((forall i, (i < length (env n))%nat -> StopNode i ∈ snd run)
           <-> stop = true) /\
        (stop = false -> forall i, StopNode i ∉ snd run))).
Proof.
  split.
  - intros fuel i Hin.
    destruct (check_match_stop_inv fuel 0 i Hin) as (n & m & Hun & Hset & _).
    exists n, m. split; [|done]. intros j Hj. apply Hun. lia.
  - intros n m Hun Hset. split.
    + intros fuel Hfuel. apply check_match_unset. intros j Hj. apply Hun. lia.
    + intros fuel Hfuel run.
      assert (Hrun : run = (Ret tt, replicate n (Sleep checkTime) ++
                             (if stop then stop_all_nodes (env n) else []))).
      { unfold run. rewrite (check_match_set n 0 m fuel); [done| |done|done].
        intros j Hj. apply Hun. lia. }
      rewrite Hrun. simpl. split; [done|]. split; [done|].
      assert (Hsleep : forall i, StopNode i ∉ replicate n (Sleep checkTime)).
      { intros i Hin. by apply elem_of_replicate in Hin as [? _]. }
      split; [split|].
      * intros Hall. destruct stop; [done|].
        pose proof (match_of_nonempty _ _ Hset) as Hlen.
        specialize (Hall 0%nat Hlen). rewrite app_nil_r in Hall.
        by apply Hsleep in Hall.
      * intros -> i Hi. apply elem_of_app. right. by apply stop_all_nodes_all.
      * intros -> i Hin. rewrite app_nil_r in Hin. by apply Hsleep in Hin.
Qed.
End CheckMatch.

Lemma check_match_stops_on_match_witness :
  (forall j, (j < 2)%nat -> match_of (demo_env j) 0 = Ret None) /\
  match_of (demo_env 2) 0 = Ret (Some (mkMatch "m" 1)) /\
  check_match 2 demo_env 0 3 true 0 = (Unbounded, [Sleep 3; Sleep 3]) /\
  check_match 5 demo_env 0 3 true 0 =
    (Ret tt, [Sleep 3; Sleep 3; StopNode 0; StopNode 1]).
Proof.
  assert (Hun : forall j, (j < 2)%nat -> match_of (demo_env j) 0 = Ret None).
  { intros j Hj. destruct j as [|[|j]]; [done|done|lia]. }
  assert (Hset : match_of (demo_env 2) 0 = Ret (Some (mkMatch "m" 1))) by done.
  destruct (check_match_stops_on_match demo_env 0 3 true) as [_ Hmain].
  destruct (Hmain 2%nat (mkMatch "m" 1) Hun Hset) as [Hbefore Hafter].
  split; [exact Hun|]. split; [exact Hset|]. split.
  - exact (Hbefore 2%nat (le_n 2)).
  - destruct (Hafter 5%nat) as (Hfst & Hsnd & _); [lia|].
    rewrite (surjective_pairing (check_match 5 demo_env 0 3 true 0)).
    by rewrite Hfst, Hsnd.
Defined.

(** ** The search process *)

Lemma count_visited_le r ls : (count_visited r ls <= length ls)%nat.
Proof. induction ls as [|L ls IH]; simpl; [done|]. destruct (visited _); lia. Qed.

(** Marking an unvisited slot adds one visited node for that role. *)
Lemma count_visited_mark r ls v L from :
  ls !! v = Some L -> visited (get_slot r L) = false ->
  count_visited r (<[v := set_slot r (mkSlot true from) L]> ls)
    = S (count_visited r ls).
Proof.
  revert v. induction ls as [|L0 ls IH]; intros v Hv Hun; [done|].
  destruct v as [|v]; simpl in *.
  - injection Hv as ->. rewrite Hun. by destruct r.
  - rewrite (IH v Hv Hun). lia.
Qed.

Lemma count_visited_mark_other r r' ls v L sl :
  r' <> r -> ls !! v = Some L ->
  count_visited r' (<[v := set_slot r sl L]> ls) = count_visited r' ls.
Proof.
  intros Hne. revert v. induction ls as [|L0 ls IH]; intros v Hv; [done|].
  destruct v as [|v]; simpl in *.
  - injection Hv as ->. by destruct r, r'.
  - by rewrite (IH v Hv).
Qed.

Lemma count_visited_full r ls :
  count_visited r ls = length ls ->
  forall v, (v < length ls)%nat -> marked r ls v.
Proof.
  induction ls as [|L ls IH]; intros Hfull v Hv; simpl in *; [lia|].
  pose proof (count_visited_le r ls).
  destruct (visited (get_slot r L)) eqn:HL; [|lia].
  destruct v as [|v]; [by exists L|].
  destruct (IH ltac:(lia) v ltac:(lia)) as (L' & HL' & Hvis). by exists L'.
Qed.

Lemma marked_mark r r' ls v L w from :
  ls !! v = Some L -> marked r' ls w ->
  marked r' (<[v := set_slot r (mkSlot true from) L]> ls) w.
Proof.
  intros Hv (L' & Hw & Hvis). destruct (decide (v = w)) as [->|Hne].
  - eexists. rewrite list_lookup_insert_eq by (by eapply lookup_lt_Some).
    split; [done|]. rewrite Hv in Hw. injection Hw as ->. by destruct r, r'.
  - exists L'. by rewrite list_lookup_insert_ne.
Qed.

Lemma marked_mark_new r ls v L from :
  ls !! v = Some L -> marked r (<[v := set_slot r (mkSlot true from) L]> ls) v.
Proof.
  intros Hv. eexists.
  rewrite list_lookup_insert_eq by (by eapply lookup_lt_Some).
  split; [done|]. by destruct r.
Qed.

(** After a mark at [v] for [r], the nodes visited are the old ones and
    [v] for [r]. *)
Lemma marked_mark_inv r r' ls v L w from :
  ls !! v = Some L ->
  marked r' (<[v := set_slot r (mkSlot true from) L]> ls) w ->
  marked r' ls w \/ (w = v /\ r' = r).
Proof.
  intros Hv (L' & Hw & Hvis). destruct (decide (v = w)) as [->|Hne].
  - rewrite list_lookup_insert_eq in Hw by (by eapply lookup_lt_Some).
    injection Hw as <-. destruct (decide (r' = r)) as [->|Hr]; [by right|].
    left. exists L. split; [done|]. by destruct r, r'.
  - rewrite list_lookup_insert_ne in Hw by done. left. by exists L'.
Qed.

Lemma elem_of_delete {A} (l : list A) j x y :
  l !! j = Some y -> x ∈ l -> x = y \/ x ∈ delete j l.
Proof.
  intros Hj Hx. rewrite delete_take_drop.
  rewrite <- (take_drop_middle l j y Hj) in Hx.
  rewrite elem_of_app, elem_of_cons in Hx. rewrite elem_of_app. tauto.
Qed.

Lemma elem_of_delete_inv {A} (l : list A) j x : x ∈ delete j l -> x ∈ l.
Proof.
  intros Hx. eapply elem_of_sublist; [done|apply sublist_delete].
Qed.

Lemma max_degree_ge graph v l :
  graph !! v = Some l -> (length l <= max_degree graph)%nat.
Proof.
  revert v. induction graph as [|l0 graph IH]; intros v Hv; [done|].
  destruct v as [|v]; simpl in *.
  - injection Hv as ->. lia.
  - specialize (IH v Hv). lia.
Qed.

Lemma length_forwards graph v r sender c f :
  (length (forwards (default [] (graph !! v)) v r sender c f)
     <= max_degree graph)%nat.
Proof.
  unfold forwards. rewrite length_map.
  etransitivity; [apply length_filter|].
  destruct (graph !! v) as [l|] eqn:Hv; simpl; [by eapply max_degree_ge|lia].
Qed.

Lemma elem_of_forwards nbrs v r sender c f sig :
  sig ∈ forwards nbrs v r sender c f <->
  exists w, w ∈ nbrs /\ w <> sender /\ sig = mkSignal w r v c f.
Proof.
  unfold forwards. rewrite list_elem_of_fmap. split.
  - intros (w & -> & Hw). apply list_elem_of_filter in Hw as [Hne Hw]. by exists w.
  - intros (w & Hw & Hne & ->). exists w. split; [done|].
    by apply list_elem_of_filter.
Qed.

(** Handling a signal does not add to the work left. *)
Lemma handle_work graph hop_cost sig s :
  (work graph (handle graph hop_cost sig s) <= work graph s)%nat.
Proof.
  unfold handle.
  destruct (ledgers s !! sg_to sig) as [L|] eqn:HL; [|done].
  destruct (visited (get_slot (sg_role sig) L)) eqn:Hvis; [done|].
  destruct (visited (get_slot (opposite (sg_role sig)) L)) eqn:Hopp; [done|].
  assert (Hout : forall out : list signal, (length out <= max_degree graph)%nat ->
    (work graph (mkFlood (<[sg_to sig := set_slot (sg_role sig)
                              (mkSlot true (Some (sg_sender sig))) L]> (ledgers s))
                   (inflight s ++ out) (located_at s)) <= work graph s)%nat).
  { intros out Hlen. unfold work. simpl. rewrite length_insert, length_app.
    pose proof (count_visited_le AliceSide (ledgers s)).
    pose proof (count_visited_le BobSide (ledgers s)).
    pose proof (count_visited_mark (sg_role sig) _ _ _ (Some (sg_sender sig)) HL Hvis) as Hc.
    pose proof (count_visited_le (sg_role sig)
                  (<[sg_to sig := set_slot (sg_role sig)
                       (mkSlot true (Some (sg_sender sig))) L]> (ledgers s))) as Hle.
    rewrite length_insert in Hle.
    destruct (sg_role sig) eqn:Hr.
    - rewrite Hc. rewrite (count_visited_mark_other AliceSide BobSide) by done. nia.
    - rewrite Hc. rewrite (count_visited_mark_other BobSide AliceSide) by done. nia. }
  destruct ((0 <? sg_counter sig - 1) && (0 <? sg_fees sig - hop_cost)).
  - apply Hout, length_forwards.
  - apply Hout. simpl. lia.
Qed.

(** Every delivery uses up some of the work left. *)
Lemma deliver_work graph hop_cost i s :
  inflight s <> [] ->
  (work graph (deliver graph hop_cost i s) < work graph s)%nat.
Proof.
  intros Hne. unfold deliver.
  assert (Hlen : (0 < length (inflight s))%nat)
    by (destruct (inflight s); [done|simpl; lia]).
  assert (Hj : (i mod length (inflight s) < length (inflight s))%nat)
    by (apply Nat.mod_upper_bound; lia).
  destruct (lookup_lt_is_Some_2 _ _ Hj) as [sig Hsig]. rewrite Hsig.
  eapply Nat.le_lt_trans; [apply handle_work|].
  unfold work. simpl. rewrite length_delete by (by eexists). lia.
Qed.

Lemma deliver_idle graph hop_cost i s :
  inflight s = [] -> deliver graph hop_cost i s = s.
Proof. intros Hnil. unfold deliver. by rewrite Hnil. Qed.

Lemma run_idle graph hop_cost schedule s :
  inflight s = [] -> run graph hop_cost schedule s = s.
Proof.
  intros Hnil. induction schedule as [|i schedule IH]; [done|].
  unfold run in *. simpl. by rewrite deliver_idle.
Qed.

(** A schedule as long as the work left delivers every signal. *)
Lemma run_quiescent graph hop_cost schedule : forall s,
  (work graph s <= length schedule)%nat ->
  inflight (run graph hop_cost schedule s) = [].
Proof.
  induction schedule as [|i schedule IH]; intros s Hwork.
  - unfold work in Hwork. change (length (@nil nat)) with 0%nat in Hwork.
    apply nil_length_inv. change (run graph hop_cost [] s) with s. nia.
  - destruct (inflight s) as [|sig rest] eqn:Hin.
    + by rewrite run_idle.
    + unfold run. simpl. apply IH.
      pose proof (deliver_work graph hop_cost i s) as Hlt.
      rewrite Hin in Hlt. specialize (Hlt ltac:(done)). simpl in Hwork. lia.
Qed.

Lemma emit_is_Some v m : is_Some (emit v m).
Proof. destruct m; by eexists. Qed.

(** [pending] survives the handling of the signal at position [j], once
    its target is visited for its role. *)
Lemma pending_step r s w j sig ls' inflight' loc' :
  inflight s !! j = Some sig ->
  (forall r' x, marked r' (ledgers s) x -> marked r' ls' x) ->
  marked (sg_role sig) ls' (sg_to sig) ->
  (forall x, x ∈ delete j (inflight s) -> x ∈ inflight') ->
  pending r s w ->
  pending r (mkFlood ls' inflight' loc') w.
Proof.
  intros Hj Hmono Hnew Hsub [Hm|(sig' & Hin & Hto & Hr)].
  - left. by apply Hmono.
  - destruct (elem_of_delete _ _ _ _ Hj Hin) as [->|Hin'].
    + left. simpl. by rewrite <- Hto, <- Hr.
    + right. exists sig'. split; [by apply Hsub|done].
Qed.

Section FloodInvariant.
Variable graph : list (list nat).
Variables a b : nat.
Variables hop_budget fees hop_cost : Z.
Hypothesis Hbudget : Z.of_nat (length graph) <= hop_budget.
Hypothesis Hcost : 0 <= hop_cost.
Hypothesis Hfees : (Z.of_nat (length graph) - 1) * hop_cost < fees.

(** Dropping a signal whose role its target has already visited. *)
Lemma good_dup s j sig L :
  flood_good graph a b hop_budget fees hop_cost s ->
  inflight s !! j = Some sig ->
  ledgers s !! sg_to sig = Some L ->
  visited (get_slot (sg_role sig) L) = true ->
  flood_good graph a b hop_budget fees hop_cost
    (mkFlood (ledgers s) (delete j (inflight s)) (located_at s)).
Proof.
  intros [Hb Hs Hc [Ha Hbb] Hd] Hj HL Hvis.
  assert (Hm : marked (sg_role sig) (ledgers s) (sg_to sig)) by (by exists L).
  assert (Hp : forall r w, pending r s w ->
            pending r (mkFlood (ledgers s) (delete j (inflight s)) (located_at s)) w).
  { intros r w. by apply (pending_step r s w j sig). }
  split; simpl.
  - intros sig' Hin. apply Hb. by eapply elem_of_delete_inv.
  - intros sig' Hin. apply Hs. by eapply elem_of_delete_inv.
  - intros r v Hv. destruct (Hc r v Hv) as [Hadj|Hall]; [left|by right].
    intros w Hw. by apply Hp, Hadj.
  - split; by apply Hp.
  - exact Hd.
Qed.

(** Marking a node that neither role has visited, and forwarding. *)
Lemma good_mark s j sig L :
  length (ledgers s) = length graph ->
  flood_good graph a b hop_budget fees hop_cost s ->
  inflight s !! j = Some sig ->
  ledgers s !! sg_to sig = Some L ->
  visited (get_slot (sg_role sig) L) = false ->
  visited (get_slot (opposite (sg_role sig)) L) = false ->
  flood_good graph a b hop_budget fees hop_cost
    (mkFlood
       (<[sg_to sig := set_slot (sg_role sig) (mkSlot true (Some (sg_sender sig))) L]>
          (ledgers s))
       (delete j (inflight s) ++
        (if (0 <? sg_counter sig - 1) && (0 <? sg_fees sig - hop_cost)
         then forwards (default [] (graph !! sg_to sig)) (sg_to sig) (sg_role sig)
                (sg_sender sig) (sg_counter sig - 1) (sg_fees sig - hop_cost)
         else []))
       (located_at s)).
Proof.
  intros Hlen [Hb Hs Hc [Ha Hbb] Hd] Hj HL Hvis Hopp.
  set (v := sg_to sig) in *. set (r := sg_role sig) in *.
  set (ls' := <[v := set_slot r (mkSlot true (Some (sg_sender sig))) L]> (ledgers s)).
  match goal with
  | |- context [delete j (inflight s) ++ ?o] => set (out := o)
  end.
  assert (Hsig : sig ∈ inflight s) by (by eapply list_elem_of_lookup_2).
  assert (Hmono : forall r' x, marked r' (ledgers s) x -> marked r' ls' x)
    by (intros r' x; by apply marked_mark).
  assert (Hnew : marked r ls' v) by (by apply marked_mark_new).
  assert (Hcount : count_visited r ls' = S (count_visited r (ledgers s)))
    by (by apply count_visited_mark).
  assert (Hcount' : forall r', r' <> r ->
            count_visited r' ls' = count_visited r' (ledgers s))
    by (intros r' Hr'; by apply count_visited_mark_other).
  assert (Hp : forall r' w, pending r' s w ->
            pending r' (mkFlood ls' (delete j (inflight s) ++ out) (located_at s)) w).
  { intros r' w. apply (pending_step r' s w j sig); [done|done|done|].
    intros x Hx. apply elem_of_app. by left. }
  assert (Hout : forall sig', sig' ∈ out ->
            (0 <? sg_counter sig - 1) && (0 <? sg_fees sig - hop_cost) = true /\
            exists w, w ∈ default [] (graph !! v) /\ w <> sg_sender sig /\
              sig' = mkSignal w r v (sg_counter sig - 1) (sg_fees sig - hop_cost)).
  { intros sig' Hin. unfold out in Hin.
    destruct ((0 <? sg_counter sig - 1) && (0 <? sg_fees sig - hop_cost));
      [|by apply not_elem_of_nil in Hin].
    split; [done|]. by apply elem_of_forwards. }
  destruct (Hb sig Hsig) as [Hbc Hbf]. fold r in Hbc, Hbf.
  split; simpl.
  - intros sig' Hin. apply elem_of_app in Hin as [Hin|Hin].
    + apply elem_of_delete_inv in Hin. destruct (Hb sig' Hin) as [H1 H2].
      destruct (decide (sg_role sig' = r)) as [Hr|Hr].
      * rewrite Hr in *. rewrite Hcount. split; [lia|nia].
      * by rewrite (Hcount' _ Hr).
    + destruct (Hout sig' Hin) as (_ & w & _ & _ & ->). simpl.
      rewrite Hcount. split; [lia|nia].
  - intros sig' Hin. apply elem_of_app in Hin as [Hin|Hin].
    + apply elem_of_delete_inv in Hin.
      destruct (Hs sig' Hin) as [Hm|Heq]; [left; by apply Hmono|by right].
    + destruct (Hout sig' Hin) as (_ & w & _ & _ & ->). simpl. by left.
  - intros r' u Hu.
    destruct (marked_mark_inv _ _ _ _ _ _ _ HL Hu) as [Hold|[-> ->]].
    + destruct (Hc r' u Hold) as [Hadj|Hall].
      * left. intros w Hw. by apply Hp, Hadj.
      * right. intros x Hx. by apply Hmono, Hall.
    + destruct ((0 <? sg_counter sig - 1) && (0 <? sg_fees sig - hop_cost)) eqn:Hcond.
      * left. intros w (l & Hl & Hw).
        destruct (decide (w = sg_sender sig)) as [->|Hne].
        -- left. simpl. destruct (Hs sig Hsig) as [Hm|Heq]; [by apply Hmono|].
           fold v in Heq. by rewrite Heq.
        -- right. exists (mkSignal w r v (sg_counter sig - 1) (sg_fees sig - hop_cost)).
           split; [|done]. apply elem_of_app. right. unfold out.
           apply elem_of_forwards. exists w. split; [by rewrite Hl|done].
      * right. intros x Hx. apply count_visited_full.
        -- pose proof (count_visited_le r ls') as Hle.
           unfold ls' in Hle at 2. rewrite length_insert in Hle.
           unfold ls' at 2. rewrite length_insert.
           apply andb_false_iff in Hcond. nia.
        -- unfold ls'. rewrite length_insert. lia.
  - split; by apply Hp.
  - intros x [HA HB].
    destruct (marked_mark_inv _ _ _ _ _ _ _ HL HA) as [HA'|[-> HrA]];
    destruct (marked_mark_inv _ _ _ _ _ _ _ HL HB) as [HB'|[HxB HrB]].
    + by apply (Hd x).
    + subst x. destruct HA' as (L' & HL' & HvA). rewrite HL in HL'.
      injection HL' as <-. unfold r in *. rewrite <- HrB in Hopp. simpl in *.
      congruence.
    + destruct HB' as (L' & HL' & HvB). rewrite HL in HL'.
      injection HL' as <-. unfold r in *. rewrite <- HrA in Hopp. simpl in *.
      congruence.
    + congruence.
Qed.
End FloodInvariant.

Section FloodLiveness.
Variable graph : list (list nat).
Variables a b : nat.
Variables hop_budget fees hop_cost : Z.
Hypothesis Hwf : wf_graph graph.
Hypothesis Hbudget : Z.of_nat (length graph) <= hop_budget.
Hypothesis Hcost : 0 <= hop_cost.
Hypothesis Hfees : (Z.of_nat (length graph) - 1) * hop_cost < fees.

Lemma handle_inv s j sig :
  flood_inv graph a b hop_budget fees hop_cost s ->
  inflight s !! j = Some sig ->
  flood_inv graph a b hop_budget fees hop_cost
    (handle graph hop_cost sig
       (mkFlood (ledgers s) (delete j (inflight s)) (located_at s))).
Proof.
  intros (Hlen & Hto & Hg) Hj.
  assert (Hsig : sig ∈ inflight s) by (by eapply list_elem_of_lookup_2).
  destruct (lookup_lt_is_Some_2 (ledgers s) (sg_to sig)) as [L HL];
    [rewrite Hlen; by apply Hto|].
  assert (Hto' : forall sig', sig' ∈ delete j (inflight s) ->
            (sg_to sig' < length graph)%nat)
    by (intros sig' Hin; by eapply Hto, elem_of_delete_inv).
  unfold handle. simpl. rewrite HL.
  destruct (visited (get_slot (sg_role sig) L)) eqn:Hvis.
  { split; [done|]. split; [done|]. simpl.
    destruct Hg as [Hsome|Hgood].
    - left. destruct (visited (get_slot (opposite (sg_role sig)) L));
        [apply emit_is_Some|done].
    - destruct (visited (get_slot (opposite (sg_role sig)) L));
        [left; apply emit_is_Some|right; by eapply good_dup]. }
  destruct (visited (get_slot (opposite (sg_role sig)) L)) eqn:Hopp.
  { split; [done|]. split; [done|]. left. apply emit_is_Some. }
  split; [simpl; by rewrite length_insert|]. split; simpl.
  - intros sig' Hin. apply elem_of_app in Hin as [Hin|Hin]; [by apply Hto'|].
    destruct ((0 <? sg_counter sig - 1) && (0 <? sg_fees sig - hop_cost));
      [|by apply not_elem_of_nil in Hin].
    apply elem_of_forwards in Hin as (w & Hw & _ & ->). simpl.
    destruct (graph !! sg_to sig) as [l|] eqn:Hl; simpl in Hw;
      [|by apply not_elem_of_nil in Hw].
    apply (Hwf (sg_to sig) w). by exists l.
  - destruct Hg as [Hsome|Hgood]; [by left|right].
    by apply good_mark.
Qed.

Lemma deliver_inv i s :
  flood_inv graph a b hop_budget fees hop_cost s ->
  flood_inv graph a b hop_budget fees hop_cost (deliver graph hop_cost i s).
Proof.
  intros Hinv. unfold deliver.
  destruct (inflight s !! (i mod length (inflight s))%nat) as [sig|] eqn:Hj;
    [by apply handle_inv|done].
Qed.

Lemma run_inv schedule : forall s,
  flood_inv graph a b hop_budget fees hop_cost s ->
  flood_inv graph a b hop_budget fees hop_cost (run graph hop_cost schedule s).
Proof.
  induction schedule as [|i schedule IH]; intros s Hinv; [done|].
  unfold run in *. simpl. by apply IH, deliver_inv.
Qed.

Lemma search_state_inv :
  (a < length graph)%nat -> (b < length graph)%nat ->
  flood_inv graph a b hop_budget fees hop_cost
    (search_state graph a b hop_budget fees).
Proof.
  intros Ha Hb. unfold search_state.
  assert (Hblank : forall r v, ~ marked r (replicate (length graph) empty_ledger) v).
  { intros r v (L & HL & Hvis). apply lookup_replicate in HL as [-> _].
    by destruct r. }
  assert (Hcount : forall r n, count_visited r (replicate n empty_ledger) = 0%nat).
  { intros r n. induction n as [|n IH]; simpl; [done|].
    rewrite IH. by destruct r. }
  split; [simpl; apply length_replicate|]. split; simpl.
  { intros sig Hin. apply elem_of_cons in Hin as [->|Hin]; [done|].
    apply list_elem_of_singleton in Hin as ->. done. }
  right. split; simpl.
  - intros sig Hin. rewrite Hcount. simpl.
    apply elem_of_cons in Hin as [->|Hin]; simpl; [lia|].
    apply list_elem_of_singleton in Hin as ->. simpl. lia.
  - intros sig Hin. right.
    apply elem_of_cons in Hin as [->|Hin]; [done|].
    by apply list_elem_of_singleton in Hin as ->.
  - intros r v Hv. by apply Hblank in Hv.
  - split; right.
    + exists (mkSignal a AliceSide a hop_budget fees).
      split; [apply elem_of_cons; by left|done].
    + exists (mkSignal b BobSide b hop_budget fees).
      split; [apply elem_of_cons; right; by apply list_elem_of_singleton|done].
  - intros v [Hv _]. by apply Hblank in Hv.
Qed.

(** With no signal left and no match, the visited nodes of a role would
    be closed under adjacency. *)
Lemma good_quiescent_spread s r u w :
  flood_good graph a b hop_budget fees hop_cost s ->
  inflight s = [] ->
  rtc (adjacent graph) u w ->
  (w < length graph)%nat ->
  marked r (ledgers s) u -> marked r (ledgers s) w.
Proof.
  intros Hgood Hnil Hpath. induction Hpath as [u|u v w Huv _ IH]; intros Hw Hu; [done|].
  destruct (good_closed _ _ _ _ _ _ _ Hgood r u Hu) as [Hadj|Hall]; [|by apply Hall].
  apply IH; [done|].
  destruct (Hadj v Huv) as [Hm|(sig & Hin & _)]; [done|].
  rewrite Hnil in Hin. by apply not_elem_of_nil in Hin.
Qed.

Lemma quiescent_matched s :
  connected graph ->
  (a < length graph)%nat -> (b < length graph)%nat ->
  flood_inv graph a b hop_budget fees hop_cost s ->
  inflight s = [] ->
  is_Some (located_at s).
Proof.
  intros Hconn Ha Hb (_ & _ & [Hsome|Hgood]) Hnil; [done|].
  exfalso.
  assert (Hstarted : marked AliceSide (ledgers s) a /\ marked BobSide (ledgers s) b).
  { destruct (good_started _ _ _ _ _ _ _ Hgood) as [[HA|(sig & Hin & _)] HB];
      [|rewrite Hnil in Hin; by apply not_elem_of_nil in Hin].
    destruct HB as [HB|(sig & Hin & _)];
      [done|rewrite Hnil in Hin; by apply not_elem_of_nil in Hin]. }
  destruct Hstarted as [HA HB].
  apply (good_disjoint _ _ _ _ _ _ _ Hgood b). split; [|done].
  apply (good_quiescent_spread s AliceSide a b); [done|done| |done|done].
  by apply Hconn.
Qed.
End FloodLiveness.

Lemma line_graph_wf : wf_graph line_graph.
Proof.
  intros u w (l & Hl & Hw). destruct u as [|[|[|u]]]; simpl in Hl; [| | |done];
    injection Hl as <-; repeat (apply elem_of_cons in Hw as [->|Hw]; [simpl; lia|]);
    by apply not_elem_of_nil in Hw.
Qed.

Lemma line_graph_adjacent u w :
  (u = 0 /\ w = 1 \/ u = 1 /\ w = 0 \/ u = 1 /\ w = 2 \/ u = 2 /\ w = 1)%nat ->
  adjacent line_graph u w.
Proof.
  intros [[-> ->]|[[-> ->]|[[-> ->]|[-> ->]]]]; eexists; (split; [reflexivity|]);
    repeat first [by apply list_elem_of_here | apply list_elem_of_further].
Qed.

Lemma line_graph_connected : connected line_graph.
Proof.
  assert (H01 : adjacent line_graph 0 1) by (apply line_graph_adjacent; auto).
  assert (H10 : adjacent line_graph 1 0) by (apply line_graph_adjacent; auto).
  assert (H12 : adjacent line_graph 1 2) by (apply line_graph_adjacent; auto 6).
  assert (H21 : adjacent line_graph 2 1) by (apply line_graph_adjacent; auto 6).
  intros u w Hu Hw. simpl in Hu, Hw.
  destruct u as [|[|[|u]]]; [| | |lia]; destruct w as [|[|[|w]]]; try lia;
    eauto using rtc_refl, rtc_once, rtc_l.
Qed.

(** With hop budget 1 on the line, a delivery only lets an endpoint
    handle its own signal, which it does not forward. *)
Lemma line_state_deliver i a_done b_done :
  exists a' b',
    deliver line_graph 0 i (line_state a_done b_done) = line_state a' b'.
Proof.
  destruct a_done, b_done.
  - exists true, true. apply deliver_idle. done.
  - exists true, true. unfold deliver.
    change (length (inflight (line_state true false))) with 1%nat.
    rewrite Nat.mod_1_r. reflexivity.
  - exists true, true. unfold deliver.
    change (length (inflight (line_state false true))) with 1%nat.
    rewrite Nat.mod_1_r. reflexivity.
  - unfold deliver.
    change (length (inflight (line_state false false))) with 2%nat.
    pose proof (Nat.mod_upper_bound i 2 ltac:(lia)) as Hlt.
    destruct (i mod 2)%nat as [|[|k]]; [| |lia].
    + exists true, false. reflexivity.
    + exists false, true. reflexivity.
Qed.

Lemma line_state_run schedule : forall a_done b_done,
  located_at (run line_graph 0 schedule (line_state a_done b_done)) = None.
Proof.
  induction schedule as [|i schedule IH]; intros a_done b_done; [done|].
  destruct (line_state_deliver i a_done b_done) as (a' & b' & Hd).
  unfold run in *. simpl. rewrite Hd. apply IH.
Qed.

(** [initiate_search] launches a search exactly on two distinct endpoints
    in range; otherwise it fails with InvalidEndpoint. *)
Lemma start_search_launches graph a b hop_budget fees :
  ((a < length graph)%nat /\ (b < length graph)%nat /\ a <> b ->
     start_search graph a b hop_budget fees
       = inr (search_state graph a b hop_budget fees)) /\
  (~ ((a < length graph)%nat /\ (b < length graph)%nat /\ a <> b) ->
     start_search graph a b hop_budget fees = inl InvalidEndpoint).
Proof.
  unfold start_search.
  destruct (Nat.ltb_spec a (length graph)); destruct (Nat.ltb_spec b (length graph));
    destruct (Nat.eqb_spec a b); simpl; split; intros Hc;
    first [done | lia | by destruct Hc].
Qed.

(** Whatever the order of delivery: on a connected graph whose nodes a
    hop budget of at least their number and a fee budget covering that
    many hops cannot run out, the search between two distinct endpoints
    ends with a match; after as many deliveries as there is work at the
    start, a match has been emitted. *)
Lemma flood_finds_match (graph : list (list nat)) (a b : nat)
    (hop_budget fees hop_cost : Z) (schedule : list nat) :
  wf_graph graph ->
  connected graph ->
  (a < length graph)%nat -> (b < length graph)%nat -> a <> b ->
  Z.of_nat (length graph) <= hop_budget ->
  0 <= hop_cost ->
  (Z.of_nat (length graph) - 1) * hop_cost < fees ->
  (work graph (search_state graph a b hop_budget fees) <= length schedule)%nat ->
  start_search graph a b hop_budget fees
    = inr (search_state graph a b hop_budget fees) /\
  is_Some (located_at
    (run graph hop_cost schedule (search_state graph a b hop_budget fees))).
Proof.
  intros Hwf Hconn Ha Hb Hne Hbudget Hcost Hfees Hwork. split.
  - by apply start_search_launches.
  - apply (quiescent_matched graph a b hop_budget fees hop_cost); [done..| |].
    + apply run_inv; [done..|]. by apply search_state_inv.
    + by apply run_quiescent.
Qed.

(** On the line [0 - 1 - 2] with hop budget 1 on both sides the
    endpoints are two hops apart, within the two budgets taken together,
    and no order of delivery produces a match. *)
Lemma flood_budget_one_no_match :
  wf_graph line_graph /\ connected line_graph /\ 0%nat <> 2%nat /\
  within_combined_budget line_graph 0 2 1 /\
  forall schedule,
    located_at (run line_graph 0 schedule (search_state line_graph 0 2 1 1)) = None.
Proof.
  split; [exact line_graph_wf|]. split; [exact line_graph_connected|].
  split; [done|]. split.
  - exists 2%nat. split; [|simpl; lia].
    apply (walk_hop _ _ _ 1%nat); [apply line_graph_adjacent; auto|].
    apply (walk_hop _ _ _ 2%nat); [apply line_graph_adjacent; auto 6|].
    constructor.
  - intros schedule. apply (line_state_run schedule false false).
Qed.

(** The two scenarios of the specification on the line: hop budget 2
    gives a match at node 1, hop budget 1 gives none. *)
Lemma line_scenarios :
  located_at (run line_graph 0 [0; 0; 0; 0]%nat (search_state line_graph 0 2 2 1))
    = Some 1%nat /\
  located_at (run line_graph 0 [0; 0; 0; 0]%nat (search_state line_graph 0 2 1 1))
    = None.
Proof. by vm_compute. Qed.

(** *** Long lines *)

Lemma long_line_length n : length (long_line n) = n.
Proof. unfold long_line. by rewrite length_map, length_seq. Qed.

Lemma long_line_lookup n v :
  (v < n)%nat -> long_line n !! v = Some (line_neighbours n v).
Proof.
  intros Hv. unfold long_line.
  change (map (line_neighbours n) (seq 0 n)) with (line_neighbours n <$> seq 0 n).
  rewrite list_lookup_fmap, lookup_seq_lt by done. done.
Qed.

Lemma elem_of_line_neighbours n v w :
  w ∈ line_neighbours n v <-> (S w = v \/ (w = S v /\ S v < n))%nat.
Proof.
  unfold line_neighbours. rewrite elem_of_app. split.
  - intros [Hw|Hw].
    + destruct v as [|u]; [by apply not_elem_of_nil in Hw|].
      apply list_elem_of_singleton in Hw. lia.
    + destruct (S v <? n)%nat eqn:Hlt; [|by apply not_elem_of_nil in Hw].
      apply list_elem_of_singleton in Hw. apply Nat.ltb_lt in Hlt. lia.
  - intros [<-|[-> Hlt]].
    + left. by apply list_elem_of_singleton.
    + right. apply Nat.ltb_lt in Hlt. rewrite Hlt. by apply list_elem_of_singleton.
Qed.

Lemma long_line_adjacent n v w :
  adjacent (long_line n) v w <->
  (v < n)%nat /\ (S w = v \/ (w = S v /\ S v < n))%nat.
Proof.
  split.
  - intros (l & Hl & Hw).
    assert (Hv : (v < n)%nat).
    { apply lookup_lt_Some in Hl. by rewrite long_line_length in Hl. }
    rewrite long_line_lookup in Hl by done. injection Hl as <-.
    split; [done|]. by apply elem_of_line_neighbours.
  - intros [Hv Hw]. exists (line_neighbours n v).
    split; [by apply long_line_lookup|]. by apply elem_of_line_neighbours.
Qed.

Lemma long_line_wf n : wf_graph (long_line n).
Proof.
  intros u w Hadj. rewrite long_line_length.
  apply long_line_adjacent in Hadj. lia.
Qed.

Lemma long_line_up n u k :
  (u + k < n)%nat -> rtc (adjacent (long_line n)) u (u + k)%nat.
Proof.
  revert u. induction k as [|k IH]; intros u Hlt.
  - rewrite Nat.add_0_r. apply rtc_refl.
  - apply rtc_l with (S u).
    + apply long_line_adjacent. lia.
    + replace (u + S k)%nat with (S u + k)%nat by lia. apply IH. lia.
Qed.

Lemma long_line_down n u k :
  (u + k < n)%nat -> rtc (adjacent (long_line n)) (u + k)%nat u.
Proof.
  revert u. induction k as [|k IH]; intros u Hlt.
  - rewrite Nat.add_0_r. apply rtc_refl.
  - apply rtc_r with (S u).
    + replace (u + S k)%nat with (S u + k)%nat by lia. apply IH. lia.
    + apply long_line_adjacent. lia.
Qed.

Lemma long_line_connected n : connected (long_line n).
Proof.
  intros u w Hu Hw. rewrite long_line_length in Hu, Hw.
  destruct (le_lt_dec u w) as [Hle|Hgt].
  - replace w with (u + (w - u))%nat by lia. apply long_line_up. lia.
  - replace u with (w + (u - w))%nat by lia. apply long_line_down. lia.
Qed.

Lemma long_line_walk n k : forall u,
  (u + k < n)%nat -> walk (long_line n) k u (u + k)%nat.
Proof.
  induction k as [|k IH]; intros u Hlt.
  - rewrite Nat.add_0_r. constructor.
  - apply walk_hop with (S u).
    + apply long_line_adjacent. lia.
    + replace (u + S k)%nat with (S u + k)%nat by lia. apply IH. lia.
Qed.

(** A hop changes the distance from either end by one. *)
Lemma far_from_end_hop n r v w :
  adjacent (long_line n) v w ->
  far_from_end n r w <= far_from_end n r v + 1.
Proof.
  intros Hadj. apply long_line_adjacent in Hadj. destruct r; simpl; lia.
Qed.

(** A node cannot be less than [c] hops from both ends of a line of at
    least [2 c] nodes. *)
Lemma far_from_end_both n c v :
  2 * c <= Z.of_nat n ->
  far_from_end n AliceSide v + 1 <= c ->
  far_from_end n BobSide v + 1 <= c -> False.
Proof. simpl. lia. Qed.

Section Apart.
Variable n : nat.
Variables c hop_cost : Z.
Hypothesis Hlong : 2 * c <= Z.of_nat n.

Lemma apart_handle s j sig :
  apart n c s ->
  inflight s !! j = Some sig ->
  apart n c (handle (long_line n) hop_cost sig
               (mkFlood (ledgers s) (delete j (inflight s)) (located_at s))).
Proof.
  intros (Hloc & Hlen & Hsigs & Hmarks) Hj.
  assert (Hsig : sig ∈ inflight s) by (by eapply list_elem_of_lookup_2).
  destruct (Hsigs sig Hsig) as (Hto & Hpos & Hfar).
  destruct (lookup_lt_is_Some_2 (ledgers s) (sg_to sig)) as [L HL]; [lia|].
  assert (Hrest : forall sig', sig' ∈ delete j (inflight s) ->
            (sg_to sig' < n)%nat /\ 1 <= sg_counter sig' /\
            far_from_end n (sg_role sig') (sg_to sig') + sg_counter sig' <= c)
    by (intros sig' Hin; by eapply Hsigs, elem_of_delete_inv).
  assert (Hopp : visited (get_slot (opposite (sg_role sig)) L) = false).
  { destruct (visited (get_slot (opposite (sg_role sig)) L)) eqn:Hv; [|done].
    exfalso.
    assert (Hm : marked (opposite (sg_role sig)) (ledgers s) (sg_to sig))
      by (by exists L).
    apply Hmarks in Hm.
    destruct (sg_role sig); simpl in Hm;
      apply (far_from_end_both n c (sg_to sig) Hlong); simpl in *; lia. }
  unfold handle. simpl. rewrite HL, Hopp.
  destruct (visited (get_slot (sg_role sig) L)) eqn:Hvis; [done|].
  split; [done|]. split; [simpl; by rewrite length_insert|]. split; simpl.
  - intros sig' Hin. apply elem_of_app in Hin as [Hin|Hin]; [by apply Hrest|].
    destruct ((0 <? sg_counter sig - 1) && (0 <? sg_fees sig - hop_cost)) eqn:Hcond;
      [|by apply not_elem_of_nil in Hin].
    apply elem_of_forwards in Hin as (w & Hw & _ & ->). simpl.
    rewrite long_line_lookup in Hw by done. simpl in Hw.
    assert (Hadj : adjacent (long_line n) (sg_to sig) w).
    { exists (line_neighbours n (sg_to sig)). split; [by apply long_line_lookup|done]. }
    pose proof (far_from_end_hop n (sg_role sig) _ _ Hadj).
    apply long_line_adjacent in Hadj. apply andb_true_iff in Hcond. lia.
  - intros r v Hv.
    destruct (marked_mark_inv _ _ _ _ _ _ _ HL Hv) as [Hold|[-> ->]];
      [by apply Hmarks|lia].
Qed.

Lemma apart_run schedule : forall s,
  apart n c s -> apart n c (run (long_line n) hop_cost schedule s).
Proof.
  induction schedule as [|i schedule IH]; intros s Hs; [done|].
  unfold run in *. simpl. apply IH. unfold deliver.
  destruct (inflight s !! (i mod length (inflight s))%nat) as [sig|] eqn:Hj;
    [by apply apart_handle|done].
Qed.

Lemma apart_start fees :
  1 <= c -> (0 < n)%nat ->
  apart n c (search_state (long_line n) 0 (n - 1) c fees).
Proof.
  intros Hc Hn. unfold search_state. rewrite long_line_length.
  split; [done|]. split; [simpl; apply length_replicate|]. split; simpl.
  - intros sig Hin. apply elem_of_cons in Hin as [->|Hin]; simpl; [lia|].
    apply list_elem_of_singleton in Hin as ->. simpl. lia.
  - intros r v (L & HL & Hvis). apply lookup_replicate in HL as [-> _].
    by destruct r.
Qed.
End Apart.

(** With hop budget [c] from both ends of a line of at least [2 c]
    nodes, the ends are at least [2 c - 1] hops apart and no order of
    delivery produces a match. *)
Lemma long_line_no_match (n : nat) (c fees hop_cost : Z) (schedule : list nat) :
  1 <= c -> 2 * c <= Z.of_nat n ->
  located_at
    (run (long_line n) hop_cost schedule
       (search_state (long_line n) 0 (n - 1) c fees)) = None.
Proof.
  intros Hc Hn.
  assert (Hstart : apart n c (search_state (long_line n) 0 (n - 1) c fees))
    by (apply apart_start; lia).
  apply (apart_run n c hop_cost) with (schedule := schedule) in Hstart; [|done].
  by destruct Hstart as (Hloc & _).
Qed.

(** C5 as stated fails for a hop budget that [get_route] can draw: on
    the line of 129 nodes with hop budget 64 on both sides, the two ends
    are distinct endpoints 128 hops apart, within the two budgets taken
    together; the search is launched, the fee budget is never touched,
    and no order of delivery produces a match. *)
Lemma flood_line_129_no_match :
  wf_graph (long_line 129) /\ connected (long_line 129) /\ 0%nat <> 128%nat /\
  within_combined_budget (long_line 129) 0 128 64 /\
  start_search (long_line 129) 0 128 64 1
    = inr (search_state (long_line 129) 0 128 64 1) /\
  forall schedule,
    located_at
      (run (long_line 129) 0 schedule (search_state (long_line 129) 0 128 64 1))
    = None.
Proof.
  split; [apply long_line_wf|]. split; [apply long_line_connected|].
  split; [done|]. split; [|split].
  - exists 128%nat. split; [|lia]. apply (long_line_walk 129 128 0). lia.
  - unfold start_search. by rewrite long_line_length.
  - intros schedule. apply (long_line_no_match 129 64 1 0 schedule); lia.
Qed.

(** *** Signals handled in the order they were sent *)

Lemma deliver_front graph hop_cost s sig0 rest :
  inflight s = sig0 :: rest ->
  deliver graph hop_cost 0 s =
    handle graph hop_cost sig0 (mkFlood (ledgers s) rest (located_at s)).
Proof.
  intros Hq. unfold deliver. rewrite Hq.
  replace (0 mod length (sig0 :: rest))%nat with 0%nat
    by (symmetry; apply Nat.Div0.mod_0_l).
  done.
Qed.

Lemma same_counter_sorted (k : Z) (l : list signal) :
  (forall sig, sig ∈ l -> sg_counter sig = k) ->
  StronglySorted (fun s1 s2 => sg_counter s2 <= sg_counter s1) l.
Proof.
  induction l as [|x l IH]; intros Hall; [constructor|].
  constructor.
  - apply IH. intros sig Hin. apply Hall. by apply list_elem_of_further.
  - apply Forall_forall. intros y Hy.
    rewrite (Hall x) by apply list_elem_of_here.
    rewrite (Hall y) by (by apply list_elem_of_further). lia.
Qed.

(** [reached] survives the handling of the oldest signal, once its
    target is visited for its role at no more than the hops it had
    used. *)
Lemma reached_step c lev lev' r s sig0 rest ls' inflight' loc' w k :
  inflight s = sig0 :: rest ->
  (forall r' x, marked r' (ledgers s) x ->
     marked r' ls' x /\ lev' r' x = lev r' x) ->
  marked (sg_role sig0) ls' (sg_to sig0) ->
  lev' (sg_role sig0) (sg_to sig0) <= hops_used c sig0 ->
  (forall x, x ∈ rest -> x ∈ inflight') ->
  reached c lev r s w k ->
  reached c lev' r (mkFlood ls' inflight' loc') w k.
Proof.
  intros Hq Hold Hnew Hlev Hsub [[Hm Hk]|(sig & Hin & Hto & Hr & Hk)].
  - left. destruct (Hold r w Hm) as [Hm' Heq]. simpl. by rewrite Heq.
  - rewrite Hq in Hin. apply elem_of_cons in Hin as [->|Hin].
    + left. simpl. rewrite <- Hto, <- Hr. split; [done|lia].
    + right. exists sig. split; [by apply Hsub|done].
Qed.

Lemma walk_snoc graph k u v w :
  walk graph k u v -> adjacent graph v w -> walk graph (S k) u w.
Proof.
  induction 1 as [u|k u x v Hux _ IH]; intros Hvw.
  - econstructor; [done|constructor].
  - econstructor; [done|by apply IH].
Qed.

Lemma walk_sym graph k u w :
  undirected graph -> walk graph k u w -> walk graph k w u.
Proof.
  intros Hun. induction 1 as [u|k u v w Huv _ IH]; [constructor|].
  eapply walk_snoc; [done|by apply Hun].
Qed.

Lemma walk_split graph d u w :
  walk graph d u w ->
  forall i, (i <= d)%nat ->
    exists m, walk graph i u m /\ walk graph (d - i) m w.
Proof.
  induction 1 as [u|k u v w Huv Hvw IH]; intros i Hi.
  - exists u. replace i with 0%nat by lia. split; constructor.
  - destruct i as [|i].
    + exists u. split; [constructor|]. simpl. by econstructor.
    + destruct (IH i ltac:(lia)) as (m & H1 & H2).
      exists m. split; [by econstructor|done].
Qed.

Section InOrder.
Variable graph : list (list nat).
Variables a b : nat.
Variables c fees hop_cost : Z.
Hypothesis Hwf : wf_graph graph.
Hypothesis Hcost : 0 <= hop_cost.
Hypothesis Hfees : (c - 1) * hop_cost < fees.

(** Dropping the oldest signal, whose role its target has already
    visited. *)
Lemma bfs_dup lev s sig0 rest L :
  bfs_good graph a b c fees hop_cost lev s ->
  inflight s = sig0 :: rest ->
  ledgers s !! sg_to sig0 = Some L ->
  visited (get_slot (sg_role sig0) L) = true ->
  bfs_good graph a b c fees hop_cost lev
    (mkFlood (ledgers s) rest (located_at s)).
Proof.
  intros [Hso Hcl Hlv Hfe Hse Hclosed [Ha Hb] Hdis] Hq HL Hvis.
  assert (Hsub : forall x, x ∈ rest -> x ∈ inflight s)
    by (intros x Hx; rewrite Hq; by apply list_elem_of_further).
  assert (Hm : marked (sg_role sig0) (ledgers s) (sg_to sig0)) by (by exists L).
  assert (Hstep : forall r w k, reached c lev r s w k ->
            reached c lev r (mkFlood (ledgers s) rest (located_at s)) w k).
  { intros r w k. apply (reached_step c lev lev r s sig0 rest); try done.
    apply Hlv; [done|]. rewrite Hq. by apply list_elem_of_here. }
  split; simpl.
  - rewrite Hq in Hso. by apply StronglySorted_inv in Hso as [? _].
  - intros s1 s2 H1 H2. apply Hcl; by apply Hsub.
  - intros r v sig Hv Hin. apply Hlv; [done|by apply Hsub].
  - intros sig Hin. by apply Hfe, Hsub.
  - intros sig Hin. by apply Hse, Hsub.
  - intros r v w Hv Hk Hadj. by apply Hstep, Hclosed.
  - split; by apply Hstep.
  - exact Hdis.
Qed.

(** Marking the target of the oldest signal and forwarding. *)
Lemma bfs_mark lev s sig0 rest L :
  bfs_good graph a b c fees hop_cost lev s ->
  inflight s = sig0 :: rest ->
  ledgers s !! sg_to sig0 = Some L ->
  visited (get_slot (sg_role sig0) L) = false ->
  visited (get_slot (opposite (sg_role sig0)) L) = false ->
  bfs_good graph a b c fees hop_cost
    (mark_level lev (sg_role sig0) (sg_to sig0) (hops_used c sig0))
    (mkFlood
       (<[sg_to sig0 := set_slot (sg_role sig0)
            (mkSlot true (Some (sg_sender sig0))) L]> (ledgers s))
       (rest ++
        (if (0 <? sg_counter sig0 - 1) && (0 <? sg_fees sig0 - hop_cost)
         then forwards (default [] (graph !! sg_to sig0)) (sg_to sig0)
                (sg_role sig0) (sg_sender sig0) (sg_counter sig0 - 1)
                (sg_fees sig0 - hop_cost)
         else []))
       (located_at s)).
Proof.
  intros [Hso Hcl Hlv Hfe Hse Hclosed [Ha Hb] Hdis] Hq HL Hvis Hopp.
  set (v0 := sg_to sig0) in *. set (r0 := sg_role sig0) in *.
  set (ls' := <[v0 := set_slot r0 (mkSlot true (Some (sg_sender sig0))) L]> (ledgers s)).
  set (lev' := mark_level lev r0 v0 (hops_used c sig0)).
  match goal with
  | |- context [rest ++ ?o] => set (out := o)
  end.
  assert (Hsig0 : sig0 ∈ inflight s) by (rewrite Hq; by apply list_elem_of_here).
  assert (Hsub : forall x, x ∈ rest -> x ∈ inflight s)
    by (intros x Hx; rewrite Hq; by apply list_elem_of_further).
  rewrite Hq in Hso. apply StronglySorted_inv in Hso as [Hso Hfront].
  rewrite Forall_forall in Hfront.
  assert (Hfront' : forall x, x ∈ rest -> sg_counter x <= sg_counter sig0)
    by (intros x Hx; by apply Hfront).
  assert (Hunmarked : ~ marked r0 (ledgers s) v0).
  { intros (L' & HL' & Hv'). rewrite HL in HL'. injection HL' as <-. congruence. }
  assert (Hlev_old : forall r x, marked r (ledgers s) x -> lev' r x = lev r x).
  { intros r x Hm. unfold lev', mark_level.
    destruct (decide (r = r0 /\ x = v0)) as [[-> ->]|_]; [by destruct Hunmarked|done]. }
  assert (Hlev_new : lev' r0 v0 = hops_used c sig0).
  { unfold lev', mark_level.
    destruct (decide (r0 = r0 /\ v0 = v0)) as [_|Hn]; [done|by destruct Hn]. }
  assert (Hold : forall r x, marked r (ledgers s) x ->
            marked r ls' x /\ lev' r x = lev r x).
  { intros r x Hm. split; [by apply marked_mark|by apply Hlev_old]. }
  assert (Hnew : marked r0 ls' v0) by (by apply marked_mark_new).
  assert (Hout : forall sig, sig ∈ out ->
            (0 <? sg_counter sig0 - 1) && (0 <? sg_fees sig0 - hop_cost) = true /\
            exists w, w ∈ default [] (graph !! v0) /\ w <> sg_sender sig0 /\
              sig = mkSignal w r0 v0 (sg_counter sig0 - 1) (sg_fees sig0 - hop_cost)).
  { intros sig Hin. unfold out in Hin.
    destruct ((0 <? sg_counter sig0 - 1) && (0 <? sg_fees sig0 - hop_cost));
      [|by apply not_elem_of_nil in Hin].
    split; [done|]. by apply elem_of_forwards. }
  assert (Hout_counter : forall sig, sig ∈ out ->
            sg_counter sig = sg_counter sig0 - 1).
  { intros sig Hin. by destruct (Hout sig Hin) as (_ & w & _ & _ & ->). }
  assert (Hstep : forall r w k, reached c lev r s w k ->
            reached c lev' r (mkFlood ls' (rest ++ out) (located_at s)) w k).
  { intros r w k. apply (reached_step c lev lev' r s sig0 rest); try done.
    - fold r0 v0. rewrite Hlev_new. lia.
    - intros x Hx. apply elem_of_app. by left. }
  pose proof (Hfe sig0 Hsig0) as Hfee0. unfold hops_used in *.
  split; simpl; unfold reached, hops_used in *.
  - apply StronglySorted_app. split; [|split; [done|]].
    + intros x1 x2 H1 H2. rewrite (Hout_counter x2 H2).
      pose proof (Hcl sig0 x1 Hsig0 (Hsub x1 H1)). lia.
    + by apply (same_counter_sorted (sg_counter sig0 - 1)).
  - intros s1 s2 H1 H2.
    apply elem_of_app in H1 as [H1|H1]; apply elem_of_app in H2 as [H2|H2].
    + apply Hcl; by apply Hsub.
    + rewrite (Hout_counter s2 H2). pose proof (Hfront' s1 H1). lia.
    + rewrite (Hout_counter s1 H1).
      pose proof (Hcl sig0 s2 Hsig0 (Hsub s2 H2)). lia.
    + rewrite (Hout_counter s1 H1), (Hout_counter s2 H2). lia.
  - intros r v sig Hv Hin.
    assert (Hbound : sg_counter sig <= sg_counter sig0).
    { apply elem_of_app in Hin as [Hin|Hin]; [by apply Hfront'|].
      rewrite (Hout_counter sig Hin). lia. }
    destruct (marked_mark_inv _ _ _ _ _ _ _ HL Hv) as [Hm|[-> ->]].
    + rewrite (Hlev_old r v Hm). pose proof (Hlv r v sig0 Hm Hsig0). lia.
    + rewrite Hlev_new. lia.
  - intros sig Hin. apply elem_of_app in Hin as [Hin|Hin]; [by apply Hfe, Hsub|].
    destruct (Hout sig Hin) as (_ & w & _ & _ & ->). simpl. rewrite Hfee0. ring.
  - intros sig Hin. apply elem_of_app in Hin as [Hin|Hin].
    + destruct (Hse sig (Hsub sig Hin)) as [Hm|Heq]; [|by right].
      left. by apply marked_mark.
    + destruct (Hout sig Hin) as (_ & w & _ & _ & ->). simpl. by left.
  - intros r v w Hv Hk Hadj.
    destruct (marked_mark_inv _ _ _ _ _ _ _ HL Hv) as [Hm|[-> ->]].
    + rewrite (Hlev_old r v Hm) in *. by apply Hstep, Hclosed.
    + rewrite Hlev_new in *.
      assert (Hcond : (0 <? sg_counter sig0 - 1) && (0 <? sg_fees sig0 - hop_cost) = true).
      { apply andb_true_iff. split; [lia|]. apply Z.ltb_lt. rewrite Hfee0. nia. }
      destruct Hadj as (l & Hl & Hw).
      destruct (decide (w = sg_sender sig0)) as [->|Hne].
      * left. cbn [ledgers].
        destruct (Hse sig0 Hsig0) as [Hm|Heq].
        -- split; [by apply marked_mark|].
           pose proof (Hlev_old _ _ Hm) as He.
           pose proof (Hlv _ _ sig0 Hm Hsig0) as Hle.
           fold r0 in He, Hle. lia.
        -- fold v0 in Heq. rewrite Heq. split; [done|]. rewrite Hlev_new. lia.
      * right.
        exists (mkSignal w r0 v0 (sg_counter sig0 - 1) (sg_fees sig0 - hop_cost)).
        simpl. split; [|split; [done|split; [done|lia]]].
        apply elem_of_app. right. unfold out. rewrite Hcond.
        apply elem_of_forwards. exists w. split; [by rewrite Hl|done].
  - split; by apply Hstep.
  - intros x [HA HB].
    destruct (marked_mark_inv _ _ _ _ _ _ _ HL HA) as [HA'|[-> HrA]];
    destruct (marked_mark_inv _ _ _ _ _ _ _ HL HB) as [HB'|[HxB HrB]].
    + by apply (Hdis x).
    + subst x. destruct HA' as (L' & HL' & HvA). rewrite HL in HL'.
      injection HL' as <-. unfold r0 in *. rewrite <- HrB in Hopp. simpl in *.
      congruence.
    + destruct HB' as (L' & HL' & HvB). rewrite HL in HL'.
      injection HL' as <-. unfold r0 in *. rewrite <- HrA in Hopp. simpl in *.
      congruence.
    + congruence.
Qed.
End InOrder.

Section InOrderRuns.
Variable graph : list (list nat).
Variables a b : nat.
Variables c fees hop_cost : Z.
Hypothesis Hwf : wf_graph graph.
Hypothesis Hcost : 0 <= hop_cost.
Hypothesis Hfees : (c - 1) * hop_cost < fees.

Lemma bfs_handle_front s sig0 rest :
  bfs_inv graph a b c fees hop_cost s ->
  inflight s = sig0 :: rest ->
  bfs_inv graph a b c fees hop_cost
    (handle graph hop_cost sig0 (mkFlood (ledgers s) rest (located_at s))).
Proof.
  intros (Hlen & Hto & Hg) Hq.
  assert (Hsig0 : sig0 ∈ inflight s) by (rewrite Hq; by apply list_elem_of_here).
  assert (Hto' : forall sig, sig ∈ rest -> (sg_to sig < length graph)%nat)
    by (intros sig Hin; apply Hto; rewrite Hq; by apply list_elem_of_further).
  destruct (lookup_lt_is_Some_2 (ledgers s) (sg_to sig0)) as [L HL];
    [rewrite Hlen; by apply Hto|].
  unfold handle. cbn [ledgers inflight located_at]. rewrite HL.
  destruct (visited (get_slot (sg_role sig0) L)) eqn:Hvis.
  { split; [done|]. split; [done|]. cbn [located_at].
    destruct Hg as [Hsome|[lev Hgood]].
    - left. destruct (visited (get_slot (opposite (sg_role sig0)) L));
        [apply emit_is_Some|done].
    - destruct (visited (get_slot (opposite (sg_role sig0)) L));
        [left; apply emit_is_Some|right; exists lev; by eapply bfs_dup]. }
  destruct (visited (get_slot (opposite (sg_role sig0)) L)) eqn:Hopp.
  { split; [done|]. split; [done|]. left. apply emit_is_Some. }
  split; [cbn [ledgers]; by rewrite length_insert|]. split; cbn [inflight located_at].
  - intros sig Hin. apply elem_of_app in Hin as [Hin|Hin]; [by apply Hto'|].
    destruct ((0 <? sg_counter sig0 - 1) && (0 <? sg_fees sig0 - hop_cost));
      [|by apply not_elem_of_nil in Hin].
    apply elem_of_forwards in Hin as (w & Hw & _ & ->). simpl.
    destruct (graph !! sg_to sig0) as [l|] eqn:Hl; simpl in Hw;
      [|by apply not_elem_of_nil in Hw].
    apply (Hwf (sg_to sig0) w). by exists l.
  - destruct Hg as [Hsome|[lev Hgood]]; [by left|right].
    eexists. by apply bfs_mark.
Qed.

Lemma bfs_run n : forall s,
  bfs_inv graph a b c fees hop_cost s ->
  bfs_inv graph a b c fees hop_cost (run graph hop_cost (in_order n) s).
Proof.
  induction n as [|n IH]; intros s Hinv; [done|].
  unfold in_order, run in *. simpl. apply IH.
  destruct (inflight s) as [|sig0 rest] eqn:Hq.
  - by rewrite deliver_idle.
  - rewrite (deliver_front _ _ _ _ _ Hq). by apply bfs_handle_front.
Qed.

Lemma bfs_start :
  (a < length graph)%nat -> (b < length graph)%nat ->
  bfs_inv graph a b c fees hop_cost (search_state graph a b c fees).
Proof.
  intros Ha Hb. unfold search_state.
  assert (Hblank : forall r v, ~ marked r (replicate (length graph) empty_ledger) v).
  { intros r v (L & HL & Hvis). apply lookup_replicate in HL as [-> _].
    by destruct r. }
  split; [simpl; apply length_replicate|]. split; simpl.
  { intros sig Hin. apply elem_of_cons in Hin as [->|Hin]; [done|].
    apply list_elem_of_singleton in Hin as ->. done. }
  right. exists (fun _ _ => 0).
  assert (Hsig : forall sig,
            sig ∈ [mkSignal a AliceSide a c fees; mkSignal b BobSide b c fees] ->
            sg_counter sig = c /\ sg_fees sig = fees /\ sg_sender sig = sg_to sig).
  { intros sig Hin. apply elem_of_cons in Hin as [->|Hin]; [done|].
    by apply list_elem_of_singleton in Hin as ->. }
  split; simpl; unfold reached, hops_used; simpl.
  - by apply (same_counter_sorted c), Hsig.
  - intros s1 s2 H1 H2. destruct (Hsig s1 H1) as [-> _].
    destruct (Hsig s2 H2) as [-> _]. lia.
  - intros r v sig Hv _. by apply Hblank in Hv.
  - intros sig Hin. destruct (Hsig sig Hin) as (-> & -> & _). lia.
  - intros sig Hin. right. by destruct (Hsig sig Hin) as (_ & _ & ->).
  - intros r v w Hv. by apply Hblank in Hv.
  - split; right.
    + exists (mkSignal a AliceSide a c fees). simpl.
      split; [apply elem_of_cons; by left|]. repeat split; lia.
    + exists (mkSignal b BobSide b c fees). simpl.
      split; [apply elem_of_cons; right; by apply list_elem_of_singleton|].
      repeat split; lia.
  - intros v [Hv _]. by apply Hblank in Hv.
Qed.

(** With every signal handled and no match, a role has visited every
    node within its budget of a visited node, level by level. *)
Lemma bfs_quiescent_walk lev s r k u w :
  bfs_good graph a b c fees hop_cost lev s ->
  inflight s = [] ->
  walk graph k u w ->
  forall j, marked r (ledgers s) u -> lev r u <= j ->
    j + Z.of_nat k + 1 <= c ->
    marked r (ledgers s) w /\ lev r w <= j + Z.of_nat k.
Proof.
  intros Hgood Hnil Hwalk.
  induction Hwalk as [u|k u v w Huv _ IH]; intros j Hu Hj Hc.
  - split; [done|lia].
  - destruct (bfs_closed _ _ _ _ _ _ _ _ Hgood r u v Hu ltac:(lia) Huv)
      as [[Hv Hlv]|(sig & Hin & _)];
      [|rewrite Hnil in Hin; by apply not_elem_of_nil in Hin].
    destruct (IH (j + 1) Hv ltac:(lia) ltac:(lia)) as [Hw Hlw].
    split; [done|lia].
Qed.

Lemma bfs_quiescent_matched s d :
  undirected graph ->
  walk graph d a b ->
  Z.of_nat d + 2 <= c + c ->
  bfs_inv graph a b c fees hop_cost s ->
  inflight s = [] ->
  is_Some (located_at s).
Proof.
  intros Hun Hwalk Hd (_ & _ & [Hsome|[lev Hgood]]) Hnil; [done|].
  exfalso.
  assert (Hstarted : (marked AliceSide (ledgers s) a /\ lev AliceSide a <= 0) /\
                     (marked BobSide (ledgers s) b /\ lev BobSide b <= 0)).
  { destruct (bfs_started _ _ _ _ _ _ _ _ Hgood) as [HA HB].
    destruct HA as [HA|(sig & Hin & _)];
      [|rewrite Hnil in Hin; by apply not_elem_of_nil in Hin].
    destruct HB as [HB|(sig & Hin & _)];
      [done|rewrite Hnil in Hin; by apply not_elem_of_nil in Hin]. }
  destruct Hstarted as [[HA HlA] [HB HlB]].
  set (i := Nat.min d (Z.to_nat (c - 1))).
  destruct (walk_split _ _ _ _ Hwalk i ltac:(unfold i; lia)) as (m & Ham & Hmb).
  apply (walk_sym _ _ _ _ Hun) in Hmb.
  destruct (bfs_quiescent_walk lev s AliceSide i a m Hgood Hnil Ham 0 HA HlA
              ltac:(unfold i; lia)) as [HmA _].
  destruct (bfs_quiescent_walk lev s BobSide (d - i) b m Hgood Hnil Hmb 0 HB HlB
              ltac:(unfold i; lia)) as [HmB _].
  by apply (bfs_disjoint _ _ _ _ _ _ _ _ Hgood m).
Qed.
End InOrderRuns.

(** C5, as the search process of the specification has it.  Each search
    spends one hop of its budget at its own endpoint, so the two floods
    meet when the endpoints are no further apart than the two budgets
    taken together less two.  On an undirected graph, for two distinct
    endpoints in range joined by a walk of [d] hops with [d + 2] at most
    twice the hop budget, and a fee budget that lasts as many hops as
    the hop budget allows, [initiate_search] launches the search, and
    with the signals handled in the order they were sent a match has
    been emitted once as many signals are handled as there is work at
    the start. *)
Theorem search_in_order_finds_match (graph : list (list nat)) (a b : nat)
    (hop_budget fees hop_cost : Z) (d n : nat) :
  wf_graph graph ->
  undirected graph ->
  (a < length graph)%nat -> (b < length graph)%nat -> a <> b ->
  walk graph d a b ->
  Z.of_nat d + 2 <= hop_budget + hop_budget ->
  0 <= hop_cost ->
  (hop_budget - 1) * hop_cost < fees ->
  (work graph (search_state graph a b hop_budget fees) <= n)%nat ->
  start_search graph a b hop_budget fees
    = inr (search_state graph a b hop_budget fees) /\
  is_Some (located_at
    (run graph hop_cost (in_order n) (search_state graph a b hop_budget fees))).
Proof.
  intros Hwf Hun Ha Hb Hne Hwalk Hd Hcost Hfees Hwork. split.
  - unfold start_search.
    rewrite (proj2 (Nat.ltb_lt _ _) Ha), (proj2 (Nat.ltb_lt _ _) Hb).
    by rewrite (proj2 (Nat.eqb_neq _ _) Hne).
  - apply (bfs_quiescent_matched graph a b hop_budget fees hop_cost _ d);
      [done|done|done| |].
    + apply bfs_run; [done..|]. by apply bfs_start.
    + apply run_quiescent. by unfold in_order; rewrite length_replicate.
Qed.

Lemma long_line_undirected n : undirected (long_line n).
Proof.
  intros u w Hadj. apply long_line_adjacent in Hadj.
  apply long_line_adjacent. lia.
Qed.

Lemma search_in_order_finds_match_witness :
  start_search (long_line 129) 0 128 65 1
    = inr (search_state (long_line 129) 0 128 65 1) /\
  is_Some (located_at
    (run (long_line 129) 0 (in_order 776) (search_state (long_line 129) 0 128 65 1))).
Proof.
  apply (search_in_order_finds_match (long_line 129) 0 128 65 1 0 128 776).
  - apply long_line_wf.
  - apply long_line_undirected.
  - rewrite long_line_length. lia.
  - rewrite long_line_length. lia.
  - lia.
  - apply (long_line_walk 129 128 0). lia.
  - lia.
  - lia.
  - lia.
  - vm_compute. lia.
Defined.

(** The bound is exact: with hop budget [c] from both ends of the line
    of [2 c] nodes, the ends are [2 c - 1] hops apart, one hop more than
    the theorem allows, and no order of delivery produces a match. *)
Lemma search_bound_exact (c : nat) (schedule : list nat) :
  (1 <= c)%nat ->
  walk (long_line (2 * c)) (2 * c - 1) 0 (2 * c - 1) /\
  located_at
    (run (long_line (2 * c)) 0 schedule
       (search_state (long_line (2 * c)) 0 (2 * c - 1) (Z.of_nat c) 1)) = None.
Proof.
  intros Hc. split.
  - apply (long_line_walk (2 * c) (2 * c - 1) 0). lia.
  - apply long_line_no_match; lia.
Qed.

(** The order of delivery matters.  On the two joined triangles the
    endpoints 0 and 5 are three hops apart and the hop budget is 3.  If
    node 2 is first reached the long way round, and node 3 likewise, both
    have spent their budget and the search ends with no match and nothing
    in flight; with the signals handled in the order they were sent the
    match is at node 3. *)
Lemma detour_order_matters :
  walk detour_graph 3 0 5 /\
  inflight (run detour_graph 0 [0; 1; 2; 0; 2; 2; 0; 0]%nat
              (search_state detour_graph 0 5 3 1)) = [] /\
  located_at (run detour_graph 0 [0; 1; 2; 0; 2; 2; 0; 0]%nat
                (search_state detour_graph 0 5 3 1)) = None /\
  located_at (run detour_graph 0 (in_order 12) (search_state detour_graph 0 5 3 1))
    = Some 3%nat.
Proof.
  split; [|by vm_compute].
  assert (Hadj : forall u w l, detour_graph !! u = Some l -> w ∈ l ->
            adjacent detour_graph u w) by (intros u w l Hl Hw; by exists l).
  apply walk_hop with 2%nat; [apply (Hadj 0 2 [1; 2])%nat; [done|set_solver]|].
  apply walk_hop with 3%nat; [apply (Hadj 2 3 [0; 1; 3])%nat; [done|set_solver]|].
  apply walk_hop with 5%nat; [apply (Hadj 3 5 [2; 4; 5])%nat; [done|set_solver]|].
  constructor.
Qed.

(** A match, once emitted, stays where it is. *)
Lemma handle_located graph hop_cost sig s v :
  located_at s = Some v -> located_at (handle graph hop_cost sig s) = Some v.
Proof.
  intros Hloc. unfold handle.
  destruct (ledgers s !! sg_to sig) as [L|]; [|done].
  destruct (visited (get_slot (sg_role sig) L));
    destruct (visited (get_slot (opposite (sg_role sig)) L)); simpl;
    by rewrite ?Hloc.
Qed.

Lemma run_located graph hop_cost schedule : forall s v,
  located_at s = Some v -> located_at (run graph hop_cost schedule s) = Some v.
Proof.
  induction schedule as [|i schedule IH]; intros s v Hloc; [done|].
  unfold run in *. simpl. apply IH. unfold deliver.
  destruct (inflight s !! (i mod length (inflight s))%nat); [|done].
  by apply handle_located.
Qed.

(** One delivery of the oldest signal, on a state written out. *)
Ltac deliver_oldest :=
  match goal with
  | |- context [deliver ?g ?k 0
                  {| ledgers := ?l; inflight := ?x :: ?r; located_at := ?o |}] =>
      rewrite (deliver_front g k
                 {| ledgers := l; inflight := x :: r; located_at := o |} x r eq_refl);
      unfold handle, forwards; cbn -[Z.ltb Z.sub Z.add deliver];
      change (0 <? 1 - 0) with true; cbn -[Z.ltb Z.sub Z.add deliver]
  end.

(** The scenario of the specification on the line [0 - 1 - 2]: with the
    signals handled in the order they were sent, every hop budget from 2
    on gives a match located at node 1. *)
Lemma line_scenario_in_order (c : Z) (n : nat) :
  2 <= c -> (4 <= n)%nat ->
  located_at (run line_graph 0 (in_order n) (search_state line_graph 0 2 c 1))
    = Some 1%nat.
Proof.
  intros Hc Hn.
  replace n with (4 + (n - 4))%nat by lia.
  unfold in_order. rewrite replicate_add. unfold run. rewrite foldl_app.
  apply (run_located line_graph 0 (replicate (n - 4) 0%nat)).
  unfold search_state. cbn [replicate foldl length line_graph].
  assert ((0 <? c - 1) = true) as Hc1 by lia.
  deliver_oldest. rewrite Hc1. cbn -[Z.ltb Z.sub Z.add deliver].
  rewrite decide_True by done. cbn -[Z.ltb Z.sub Z.add deliver].
  deliver_oldest. rewrite Hc1. cbn -[Z.ltb Z.sub Z.add deliver].
  rewrite decide_True by done. cbn -[Z.ltb Z.sub Z.add deliver].
  deliver_oldest.
  destruct (0 <? c - 1 - 1); cbn -[Z.ltb Z.sub Z.add deliver];
    deliver_oldest; reflexivity.
Qed.

(** * Further properties of the code *)

(** ** More on the route builder *)

Lemma appends_lookup_other h res l r :
  r <> res -> appends h res l !! r = h !! r.
Proof.
  intros Hne. revert h. induction l as [|x l IH]; intros h; [done|].
  unfold appends in *. simpl. rewrite IH. unfold append.
  by rewrite lookup_insert_ne.
Qed.

(** What the caller sees, for any list given as [res]. *)
Lemma returned_build_route fuel network matchId start res h :
  returned (build_route fuel network matchId start res h) =
    match snd (visit fuel network matchId start) with
    | Returned => Ret (deref h res ++ fst (visit fuel network matchId start))
    | Raised e => Raise e
    | OutOfFuel => Unbounded
    end.
Proof.
  unfold returned. rewrite build_route_visit. simpl.
  destruct (snd (visit fuel network matchId start)); simpl; [|done..].
  by rewrite deref_appends_same.
Qed.

(** A run that returns has walked a chain. *)
Lemma visit_returned_chain fuel network matchId : forall c l,
  visit fuel network matchId c = (l, Returned) -> chain network matchId c l.
Proof.
  induction fuel as [|fuel IH]; intros c l Hv; simpl in Hv; [done|].
  destruct (pointer network matchId c) as [n|e|] eqn:Hp; [|done..].
  destruct (c =? n) eqn:Hcn.
  - apply Z.eqb_eq in Hcn as <-. injection Hv as <-. by constructor.
  - apply Z.eqb_neq in Hcn.
    destruct (visit fuel network matchId n) as [l' s] eqn:Hn.
    injection Hv as <- ->. econstructor; [done|done|by apply IH].
Qed.

Lemma chain_functional network matchId c l1 :
  chain network matchId c l1 ->
  forall l2, chain network matchId c l2 -> l1 = l2.
Proof.
  induction 1 as [c Hp|c n l Hp Hne Hl IH]; intros l2 H2;
    destruct H2 as [c Hp2|c n2 l2 Hp2 Hne2 Hl2]; try congruence.
  assert (n2 = n) as -> by congruence. f_equal. by apply IH.
Qed.

(** From any node of a chain, the rest of the chain is the chain of that
    node. *)
Lemma chain_suffix network matchId c l :
  chain network matchId c l ->
  forall i x, l !! i = Some x -> chain network matchId x (drop i l).
Proof.
  induction 1 as [c Hp|c n l Hp Hne Hl IH]; intros i x Hx.
  - destruct i as [|i]; [|by destruct i].
    injection Hx as <-. by constructor.
  - destruct i as [|i]; simpl in *.
    + injection Hx as <-. by econstructor.
    + by apply IH.
Qed.

Lemma chain_NoDup network matchId c l :
  chain network matchId c l -> NoDup l.
Proof.
  induction 1 as [c Hp|c n l Hp Hne Hl IH].
  - apply NoDup_singleton.
  - apply NoDup_cons. split; [|done].
    intros Hin. apply list_elem_of_lookup_1 in Hin as [i Hi].
    pose proof (chain_suffix _ _ _ _ Hl i c Hi) as Hsuf.
    assert (Hfull : chain network matchId c (c :: l)) by (by econstructor).
    pose proof (chain_functional _ _ _ _ Hfull _ Hsuf) as Heq.
    apply (f_equal length) in Heq. rewrite length_drop in Heq. simpl in Heq. lia.
Qed.

Lemma chain_pointer network matchId c l :
  chain network matchId c l ->
  forall x, x ∈ l -> exists n, pointer network matchId x = Ret n.
Proof.
  induction 1 as [c Hp|c n l Hp Hne Hl IH]; intros x Hx.
  - apply list_elem_of_singleton in Hx as ->. by eexists.
  - apply elem_of_cons in Hx as [->|Hx]; [by eexists|by apply IH].
Qed.

Lemma py_index_is_Some {A} (l : list A) (i : Z) :
  is_Some (py_index l i) <-> - Z.of_nat (length l) <= i < Z.of_nat (length l).
Proof.
  unfold py_index.
  destruct ((0 <=? i) && (i <? Z.of_nat (length l))) eqn:H1.
  - rewrite lookup_lt_is_Some. lia.
  - destruct ((- Z.of_nat (length l) <=? i) && (i <? 0)) eqn:H2.
    + rewrite lookup_lt_is_Some. lia.
    + split; [by intros [? ?]|lia].
Qed.

(** A negative index names the node [len] places further. *)
Lemma py_index_negative {A} (l : list A) (i : Z) :
  0 <= i < Z.of_nat (length l) ->
  py_index l (i - Z.of_nat (length l)) = py_index l i.
Proof.
  intros Hi. unfold py_index.
  assert ((0 <=? i) && (i <? Z.of_nat (length l)) = true) as -> by lia.
  assert ((0 <=? i - Z.of_nat (length l))
          && (i - Z.of_nat (length l) <? Z.of_nat (length l)) = false) as -> by lia.
  assert ((- Z.of_nat (length l) <=? i - Z.of_nat (length l))
          && (i - Z.of_nat (length l) <? 0) = true) as -> by lia.
  f_equal. lia.
Qed.

(** A lookup that fails ends the run with its error, after the nodes on
    the way have been appended. *)
Lemma visit_raised network matchId k : forall c x e,
  follow network matchId k c = Some x ->
  pointer network matchId x = Raise e ->
  forall fuel, (k < fuel)%nat ->
  exists l,
    visit fuel network matchId c = (l, Raised e) /\
    length l = k /\
    forall i, (i < k)%nat -> l !! i = follow network matchId i c.
Proof.
  induction k as [|k IH]; intros c x e Hf Hx fuel Hfuel;
    (destruct fuel as [|fuel]; [lia|]); simpl in *.
  - injection Hf as ->. rewrite Hx. exists []. split; [done|]. split; [done|].
    intros i Hi. lia.
  - destruct (pointer network matchId c) as [n| |] eqn:Hp; try done.
    assert (Hne : c <> n).
    { intros <-. rewrite (follow_self _ _ _ _ Hp) in Hf. injection Hf as <-.
      congruence. }
    apply Z.eqb_neq in Hne. rewrite Hne.
    destruct (IH n x e Hf Hx fuel ltac:(lia)) as (l & Hv & Hlen & Hl).
    rewrite Hv. exists (c :: l). split; [done|]. split; [simpl; lia|].
    intros i Hi. destruct i as [|i]; simpl; [done|].
    rewrite Hp. apply Hl. lia.
Qed.

Lemma visit_length fuel network matchId : forall c,
  (length (fst (visit fuel network matchId c)) <= fuel)%nat.
Proof.
  induction fuel as [|fuel IH]; intros c; simpl; [done|].
  destruct (pointer network matchId c) as [n|e|]; simpl; try lia.
  destruct (c =? n); simpl; [lia|].
  specialize (IH n). destruct (visit fuel network matchId n). simpl in *. lia.
Qed.

(** A call on an empty list that returns has walked the chain it
    returns. *)
Lemma returned_chain fuel network matchId start res h route :
  deref h res = [] ->
  returned (build_route fuel network matchId start res h) = Ret route ->
  chain network matchId start route /\ (length route <= fuel)%nat.
Proof.
  intros Hempty Hret. rewrite returned_build_route, Hempty in Hret.
  pose proof (visit_length fuel network matchId start) as Hlen.
  destruct (visit fuel network matchId start) as [l s] eqn:Hv. simpl in *.
  destruct s; [|done..]. injection Hret as <-.
  split; [by eapply visit_returned_chain|done].
Qed.

(** X1. A route that [build_route] returns in an empty list is a simple
    path: no identity occurs twice in it. *)
Theorem build_route_simple_path fuel network matchId start res h route :
  deref h res = [] ->
  returned (build_route fuel network matchId start res h) = Ret route ->
  NoDup route.
Proof.
  intros Hempty Hret.
  destruct (returned_chain _ _ _ _ _ _ _ Hempty Hret) as [Hc _].
  by eapply chain_NoDup.
Qed.

Lemma build_route_simple_path_witness : NoDup [2; 1; 0].
Proof.
  apply (build_route_simple_path 3 line_network "m" 2 res_default init_heap);
    reflexivity.
Defined.

(** X2. Whatever its outcome, [build_route] touches no list but [res],
    only appends to [res] (what was in it stays in front), and when it
    returns it returns [res] itself. *)
Theorem build_route_only_appends fuel network matchId current res h :
  (forall l, l <> res ->
     snd (build_route fuel network matchId current res h) !! l = h !! l) /\
  deref h res `prefix_of`
    deref (snd (build_route fuel network matchId current res h)) res /\
  (forall l, fst (build_route fuel network matchId current res h) = Ret l ->
     l = res).
Proof.
  rewrite build_route_visit. simpl. split; [|split].
  - intros l Hl. by apply appends_lookup_other.
  - rewrite deref_appends_same. by apply prefix_app_r.
  - intros l Hl. destruct (snd (visit fuel network matchId current)); simpl in Hl;
      congruence.
Qed.

(** X3. When the pointers lead after [k] hops to an identity whose lookup
    fails (no such node: [IndexError]; no entry for [matchId]:
    [KeyError]), [build_route] raises that error, and by then it has
    appended to [res] the [k] identities it went through. *)
Theorem build_route_raises_after_appending network matchId start k x e res h fuel :
  follow network matchId k start = Some x ->
  pointer network matchId x = Raise e ->
  (k < fuel)%nat ->
  fst (build_route fuel network matchId start res h) = Raise e /\
  (e = IndexError \/ e = KeyError) /\
  exists visited,
    length visited = k /\
    (forall i, (i < k)%nat -> visited !! i = follow network matchId i start) /\
    deref (snd (build_route fuel network matchId start res h)) res
      = deref h res ++ visited.
Proof.
  intros Hf Hx Hfuel.
  destruct (visit_raised _ _ _ _ _ _ Hf Hx fuel Hfuel) as (l & Hv & Hlen & Hl).
  rewrite build_route_visit, Hv. simpl. split; [done|]. split.
  - apply (visit_raises fuel network matchId start). by rewrite Hv.
  - exists l. split; [done|]. split; [done|]. apply deref_appends_same.
Qed.

Lemma build_route_raises_after_appending_witness :
  fst (build_route 3 broken_network "m" 0 res_default init_heap) = Raise IndexError /\
  (IndexError = IndexError \/ IndexError = KeyError) /\
  exists visited,
    length visited = 2%nat /\
    (forall i, (i < 2)%nat -> visited !! i = follow broken_network "m" i 0) /\
    deref (snd (build_route 3 broken_network "m" 0 res_default init_heap)) res_default
      = deref init_heap res_default ++ visited.
Proof.
  apply (build_route_raises_after_appending broken_network "m" 0 2 5 IndexError
           res_default init_heap 3); [reflexivity|reflexivity|lia].
Defined.

(** X4. Called with a list that is empty, [build_route] gives the caller
    what the first call with the default list gives: the same route, the
    same error, or no result within the same depth.  What earlier calls
    have left in other lists plays no part. *)
Theorem build_route_empty_list fuel network matchId start res h :
  deref h res = [] ->
  returned (build_route fuel network matchId start res h) =
  returned (build_route_default fuel network matchId start init_heap).
Proof.
  intros Hempty. unfold build_route_default.
  rewrite !returned_build_route, Hempty. done.
Qed.

Lemma build_route_empty_list_witness :
  returned
    (build_route 3 line_network "m" 2 1%nat
       (<[1%nat := []]> (snd (build_route_default 3 line_network "m" 2 init_heap)))) =
  returned (build_route_default 3 line_network "m" 2 init_heap).
Proof.
  apply (build_route_empty_list 3 line_network "m" 2 1%nat). reflexivity.
Defined.

(** X5. Every identity on a route returned in an empty list is a valid
    index of the network, between [-len(network)] and [len(network) - 1],
    and the node it names has an entry for [matchId]. *)
Theorem build_route_nodes_in_range fuel network matchId start res h route x :
  deref h res = [] ->
  returned (build_route fuel network matchId start res h) = Ret route ->
  x ∈ route ->
  - Z.of_nat (length network) <= x < Z.of_nat (length network) /\
  exists node next,
    py_index network x = Some node /\ match_data node !! matchId = Some next.
Proof.
  intros Hempty Hret Hx.
  destruct (returned_chain _ _ _ _ _ _ _ Hempty Hret) as [Hc _].
  destruct (chain_pointer _ _ _ _ Hc x Hx) as [n Hp].
  unfold pointer in Hp.
  destruct (py_index network x) as [node|] eqn:Hidx; [|done].
  destruct (match_data node !! matchId) as [next|] eqn:Hmd; [|done].
  split; [|by exists node, next].
  apply py_index_is_Some. by rewrite Hidx.
Qed.

Lemma build_route_nodes_in_range_witness :
  - Z.of_nat (length line_network) <= 1 < Z.of_nat (length line_network) /\
  exists node next,
    py_index line_network 1 = Some node /\ match_data node !! "m" = Some next.
Proof.
  apply (build_route_nodes_in_range 3 line_network "m" 2 res_default init_heap
           [2; 1; 0] 1); [reflexivity|reflexivity|].
  apply elem_of_cons. right. apply elem_of_cons. by left.
Defined.

(** X6. Routes are closed under taking the rest: from any identity on a
    returned route, [build_route] returns the part of the route that
    starts there. *)
Theorem build_route_rest_of_route fuel network matchId start res h route i x :
  deref h res = [] ->
  returned (build_route fuel network matchId start res h) = Ret route ->
  route !! i = Some x ->
  returned (build_route fuel network matchId x res h) = Ret (drop i route).
Proof.
  intros Hempty Hret Hx.
  destruct (returned_chain _ _ _ _ _ _ _ Hempty Hret) as [Hc Hlen].
  pose proof (chain_suffix _ _ _ _ Hc i x Hx) as Hsuf.
  rewrite returned_build_route, Hempty.
  rewrite (chain_visit _ _ _ _ Hsuf fuel); [done|].
  rewrite length_drop. lia.
Qed.

Lemma build_route_rest_of_route_witness :
  returned (build_route 3 line_network "m" 1 res_default init_heap)
    = Ret (drop 1 [2; 1; 0]).
Proof.
  apply (build_route_rest_of_route 3 line_network "m" 2 res_default init_heap
           [2; 1; 0] 1 1); reflexivity.
Defined.

(** X7. [build_route] accepts a negative start: [i - len(network)] names
    node [i], and the route is that negative identity followed by the
    route from the node its pointer gives.  A node that points to itself
    is therefore listed twice, under both identities, when the walk starts
    from its negative one. *)
Theorem build_route_negative_start fuel network matchId i n res h route :
  0 <= i < Z.of_nat (length network) ->
  0 <= n ->
  pointer network matchId i = Ret n ->
  deref h res = [] ->
  returned (build_route fuel network matchId n res h) = Ret route ->
  returned (build_route (S fuel) network matchId (i - Z.of_nat (length network)) res h)
    = Ret ((i - Z.of_nat (length network)) :: route).
Proof.
  intros Hi Hn Hp Hempty Hret.
  assert (Hp' : pointer network matchId (i - Z.of_nat (length network)) = Ret n).
  { unfold pointer in *. by rewrite py_index_negative. }
  rewrite returned_build_route, Hempty in Hret.
  rewrite returned_build_route, Hempty. simpl. rewrite Hp'.
  assert ((i - Z.of_nat (length network) =? n) = false) as -> by lia.
  destruct (visit fuel network matchId n) as [l s]. simpl in *.
  destruct s; [|done..]. by injection Hret as <-.
Qed.

Lemma build_route_negative_start_witness :
  returned (build_route 2 line_network "m" (0 - Z.of_nat (length line_network))
              res_default init_heap)
    = Ret ((0 - Z.of_nat (length line_network)) :: [0]).
Proof.
  apply (build_route_negative_start 1 line_network "m" 0 0 res_default init_heap [0]);
    [simpl; lia|lia|reflexivity|reflexivity|reflexivity].
Defined.

(** ** More on [get_route] *)




(** X9. A successful [get_route] creates exactly one task for every node
    of the network, endpoint or not, in the order of the network, after
    the tasks that were there. *)
Theorem get_route_one_task_per_node {rng : Type} `{RandomSource rng}
    (st : state rng) (alice bob amount : Z) (st' : state rng) :
  get_route st alice bob amount = (Ret tt, st') ->
  st_tasks st' = st_tasks st ++ seq 0 (length (st_network st)) /\
  length (st_tasks st') = (length (st_tasks st) + length (st_network st))%nat.
Proof.
  intros Hret. destruct (get_route_ret _ _ _ _ _ Hret) as (Ha & Hb & Hne).
  destruct (get_route_guard st alice bob amount Ha Hb Hne)
    as (na & nb & _ & _ & Heq).
  simpl in Heq. rewrite Heq in Hret. injection Hret as <-. simpl.
  rewrite !length_alter. split; [done|].
  by rewrite length_app, length_seq.
Qed.

Lemma get_route_one_task_per_node_witness :
  st_tasks (snd (get_route demo_state 0 2 1))
    = st_tasks demo_state ++ seq 0 (length (st_network demo_state)) /\
  length (st_tasks (snd (get_route demo_state 0 2 1)))
    = (length (st_tasks demo_state) + length (st_network demo_state))%nat.
Proof.
  apply (@get_route_one_task_per_node Z counter_source demo_state 0 2 1).
  vm_compute. reflexivity.
Defined.

(** X10. The outcome of [get_route] by cases.  An endpoint outside
    [0, len(network)) gives the message "alice or bob are not connected",
    also when the two endpoints are equal, and also for a negative index
    that the list would accept; two equal endpoints in range give "alice
    and bob is the same node"; every other call goes through to the
    creation of the tasks. *)
Theorem get_route_outcome {rng : Type} `{RandomSource rng}
    (st : state rng) (alice bob amount : Z) :
  (~ in_range st alice \/ ~ in_range st bob ->
     fst (get_route st alice bob amount) = Raise (PyException msg_not_connected)) /\
  (in_range st alice -> in_range st bob -> alice = bob ->
     fst (get_route st alice bob amount) = Raise (PyException msg_same_node)) /\
  (in_range st alice -> in_range st bob -> alice <> bob ->
     fst (get_route st alice bob amount) = Ret tt).
Proof.
  split; [|split].
  - intros Hbad. by rewrite get_route_bad_range.
  - intros Ha _ <-. by rewrite get_route_same.
  - intros Ha Hb Hne.
    destruct (get_route_guard st alice bob amount Ha Hb Hne)
      as (na & nb & _ & _ & Heq).
    simpl in Heq. by rewrite Heq.
Qed.

Lemma get_route_outcome_witness :
  fst (get_route demo_state 7 7 1) = Raise (PyException msg_not_connected) /\
  fst (get_route demo_state (-1) 2 1) = Raise (PyException msg_not_connected) /\
  fst (get_route demo_state 1 1 1) = Raise (PyException msg_same_node) /\
  fst (get_route demo_state 0 2 1) = Ret tt.
Proof.
  destruct (@get_route_outcome Z counter_source demo_state 7 7 1) as (H1 & _ & _).
  destruct (@get_route_outcome Z counter_source demo_state (-1) 2 1) as (H2 & _ & _).
  destruct (@get_route_outcome Z counter_source demo_state 1 1 1) as (_ & H3 & _).
  destruct (@get_route_outcome Z counter_source demo_state 0 2 1) as (_ & _ & H4).
  split; [apply H1; left; unfold in_range; simpl; lia|].
  split; [apply H2; left; unfold in_range; simpl; lia|].
  split; [apply H3; [unfold in_range; simpl; lia..|done]|].
  apply H4; [unfold in_range; simpl; lia..|done].
Defined.

(** X11. The two payments of a successful [get_route] carry the requested
    amount and refer to the same two endpoints, [bob] then [alice]; Bob's
    payment is Alice's with the two role flags exchanged and nothing else
    changed. *)
Theorem get_route_twin_payments {rng : Type} `{RandomSource rng}
    (st : state rng) (alice bob amount : Z) (st' : state rng) :
  get_route st alice bob amount = (Ret tt, st') ->
  exists pa pb,
    payment <$> st_network st' !! Z.to_nat alice = Some (Some pa) /\
    payment <$> st_network st' !! Z.to_nat bob = Some (Some pb) /\
    p_amount pa = amount /\ p_bob pa = bob /\ p_alice pa = alice /\
    pb = mkPayment (p_seed pa) (p_amount pa) (p_is_alice pa) (p_is_bob pa)
           (p_bob pa) (p_alice pa) (p_fees pa) (p_counter pa) (p_match pa).
Proof.
  intros Hret.
  destruct (get_route_payments _ _ _ _ _ Hret) as (na & nb & _ & _ & Hpa & Hpb).
  simpl in *. eexists _, _. split; [exact Hpa|]. split; [exact Hpb|]. done.
Qed.

Lemma get_route_twin_payments_witness :
  exists pa pb,
    payment <$> st_network (snd (get_route demo_state 0 2 1)) !! Z.to_nat 0
      = Some (Some pa) /\
    payment <$> st_network (snd (get_route demo_state 0 2 1)) !! Z.to_nat 2
      = Some (Some pb) /\
    p_amount pa = 1 /\ p_bob pa = 2 /\ p_alice pa = 0 /\
    pb = mkPayment (p_seed pa) (p_amount pa) (p_is_alice pa) (p_is_bob pa)
           (p_bob pa) (p_alice pa) (p_fees pa) (p_counter pa) (p_match pa).
Proof.
  apply (@get_route_twin_payments Z counter_source demo_state 0 2 1).
  vm_compute. reflexivity.
Defined.

(** ** More on [generate_seed] *)

Lemma binary_value_append a b : forall acc,
  binary_value acc (a +:+ b) = binary_value (binary_value acc a) b.
Proof. induction a as [|c a IH]; intros acc; simpl; [done|]. by rewrite IH. Qed.

Lemma binary_value_zeros n : binary_value 0 (zeros n) = 0.
Proof. induction n as [|n IH]; simpl; [done|]. exact IH. Qed.

Lemma binary_value_bits p : binary_value 0 (bits p) = Z.pos p.
Proof.
  induction p as [p IH|p IH|]; simpl; [| |done];
    rewrite binary_value_append, IH; simpl; lia.
Qed.

(** Reading the seed of a draw gives back the number drawn. *)
Lemma binary_value_seed_of n :
  0 <= n < 2 ^ 128 -> binary_value 0 (seed_of n) = n.
Proof.
  intros [Hlo Hhi]. destruct n as [|p|p]; [by vm_compute| |lia].
  unfold seed_of. change (slice_from 2 (bin (Z.pos p))) with (bits p).
  destruct (bits_head p) as [rest Hrest].
  pose proof (binary_value_bits p) as Hval. rewrite Hrest in *.
  rewrite zfill_unsigned by done.
  by rewrite binary_value_append, binary_value_zeros.
Qed.

(** X12. The seed keeps all of the number drawn: read as a binary
    numeral it gives back the value of [getrandbits(128)], so two calls
    of [generate_seed] return the same seed only if they drew the same
    number. *)
Theorem generate_seed_keeps_draw {rng : Type} `{RandomSourceOk rng} (g g' : rng) :
  binary_value 0 (fst (generate_seed g)) = fst (getrandbits 128 g) /\
  (fst (generate_seed g) = fst (generate_seed g') ->
     fst (getrandbits 128 g) = fst (getrandbits 128 g')).
Proof.
  assert (Hval : forall g0 : rng,
            binary_value 0 (fst (generate_seed g0)) = fst (getrandbits 128 g0)).
  { intros g0. pose proof (getrandbits_range 128 g0 ltac:(lia)) as Hr.
    unfold generate_seed. destruct (getrandbits 128 g0) as [n g1]. simpl in *.
    by apply binary_value_seed_of. }
  split; [apply Hval|].
  intros Heq. rewrite <- (Hval g), <- (Hval g'). by rewrite Heq.
Qed.

Lemma generate_seed_keeps_draw_witness :
  binary_value 0 (fst (generate_seed 7)) = fst (getrandbits 128 7) /\
  (fst (generate_seed 7) = fst (generate_seed 9) ->
     fst (getrandbits 128 7) = fst (getrandbits 128 9)).
Proof.
  exact (@generate_seed_keeps_draw Z counter_source counter_source_ok 7 9).
Defined.

(** ** More on [check_match] *)

Lemma match_of_cases network fromNode :
  (exists m, match_of network fromNode = Ret m) \/
  (match_of network fromNode = Raise IndexError /\
   py_index network fromNode = None) \/
  (match_of network fromNode = Raise AttributeError /\
   exists node, py_index network fromNode = Some node /\ payment node = None).
Proof.
  unfold match_of. destruct (py_index network fromNode) as [node|]; [|auto].
  destruct (payment node) as [p|] eqn:Hp; [left; by eexists|].
  right. right. split; [done|]. by exists node.
Qed.

Section WatcherRuns.
Variable env : nat -> list Node.
Variables fromNode checkTime : Z.
Variable stop : bool.

(** Every run of the watcher: some tests that see the match unset, a
    sleep after each, and then the match, an error, or the end of the
    fuel. *)
Lemma check_match_shape fuel : forall k,
  exists n,
    (n <= fuel)%nat /\
    (forall j, (k <= j < k + n)%nat -> match_of (env j) fromNode = Ret None) /\
    ((exists m, (n < fuel)%nat /\
        match_of (env (k + n)) fromNode = Ret (Some m) /\
        check_match fuel env fromNode checkTime stop k =
          (Ret tt, replicate n (Sleep checkTime) ++
                   (if stop then stop_all_nodes (env (k + n)) else []))) \/
     (exists e, (n < fuel)%nat /\
        match_of (env (k + n)) fromNode = Raise e /\
        check_match fuel env fromNode checkTime stop k =
          (Raise e, replicate n (Sleep checkTime))) \/
     (n = fuel /\
        check_match fuel env fromNode checkTime stop k =
          (Unbounded, replicate n (Sleep checkTime)))).
Proof.
  induction fuel as [|fuel IH]; intros k.
  - exists 0%nat. split; [done|]. split; [intros j Hj; lia|]. right. right. done.
  - simpl. destruct (match_of (env k) fromNode) as [[m|]|e|] eqn:Hk.
    + exists 0%nat. split; [lia|]. split; [intros j Hj; lia|]. left.
      exists m. rewrite Nat.add_0_r. split; [lia|done].
    + destruct (IH (S k)) as (n & Hn & Hun & Hcase).
      exists (S n). split; [lia|]. split.
      { intros j Hj. destruct (decide (j = k)) as [->|Hne]; [done|].
        apply Hun. lia. }
      replace (k + S n)%nat with (S k + n)%nat by lia.
      destruct Hcase as [(m & Hlt & Hm & ->)|[(e & Hlt & He & ->)|[-> ->]]].
      * left. exists m. split; [lia|done].
      * right. left. exists e. split; [lia|done].
      * right. right. done.
    + exists 0%nat. split; [lia|]. split; [intros j Hj; lia|]. right. left.
      exists e. rewrite Nat.add_0_r. split; [lia|done].
    + destruct (match_of_cases (env k) fromNode) as [[m Hm]|[[Hm _]|[Hm _]]];
        congruence.
Qed.

Lemma check_match_raise n : forall k e fuel,
  (forall j, (k <= j < k + n)%nat -> match_of (env j) fromNode = Ret None) ->
  match_of (env (k + n)) fromNode = Raise e ->
  (n < fuel)%nat ->
  check_match fuel env fromNode checkTime stop k =
    (Raise e, replicate n (Sleep checkTime)).
Proof.
  induction n as [|n IH]; intros k e fuel Hun Hraise Hfuel;
    (destruct fuel as [|fuel]; [lia|]); simpl.
  - rewrite Nat.add_0_r in Hraise. by rewrite Hraise.
  - rewrite (Hun k) by lia.
    rewrite (IH (S k) e fuel); [done| | |lia].
    + intros j Hj. apply Hun. lia.
    + by replace (S k + n)%nat with (k + S n)%nat by lia.
Qed.
End WatcherRuns.

(** X13. [check_match] has no timeout: as long as every test sees the
    match unset it goes on sleeping, and on a network where the match
    never comes it never returns and stops no node. *)
Theorem check_match_no_timeout env fromNode checkTime stop :
  (forall k, match_of (env k) fromNode = Ret None) ->
  forall fuel,
    check_match fuel env fromNode checkTime stop 0 =
      (Unbounded, replicate fuel (Sleep checkTime)).
Proof.
  intros Hun fuel. apply check_match_unset. intros j _. apply Hun.
Qed.

Lemma check_match_no_timeout_witness :
  check_match 4 idle_env 0 3 true 0 = (Unbounded, replicate 4 (Sleep 3)).
Proof.
  apply (check_match_no_timeout idle_env 0 3 true); intros k; reflexivity.
Defined.

(** X14. [check_match] does not validate [fromNode] and does not guard
    against a node without payment: at the first test that fails to read
    [network[fromNode].payment.match] it ends with the error of that read,
    [IndexError] when [fromNode] is outside [-len, len) and
    [AttributeError] when the node has no payment, after one sleep for
    every earlier test, and without stopping any node. *)
Theorem check_match_read_error env fromNode checkTime stop n e fuel :
  (forall j, (j < n)%nat -> match_of (env j) fromNode = Ret None) ->
  match_of (env n) fromNode = Raise e ->
  (n < fuel)%nat ->
  check_match fuel env fromNode checkTime stop 0 =
    (Raise e, replicate n (Sleep checkTime)) /\
  ((e = IndexError /\
    ~ (- Z.of_nat (length (env n)) <= fromNode < Z.of_nat (length (env n)))) \/
   (e = AttributeError /\
    exists node, py_index (env n) fromNode = Some node /\ payment node = None)).
Proof.
  intros Hun Hraise Hfuel. split.
  - apply (check_match_raise env fromNode checkTime stop n 0 e fuel); [|done|done].
    intros j Hj. apply Hun. lia.
  - destruct (match_of_cases (env n) fromNode) as [[m Hm]|[[Hm Hidx]|[Hm Hnode]]].
    + congruence.
    + left. split; [congruence|]. intros Hin.
      apply py_index_is_Some in Hin. rewrite Hidx in Hin. by destruct Hin.
    + right. split; [congruence|done].
Qed.

Lemma check_match_read_error_witness :
  check_match 4 failing_env 0 3 true 0 = (Raise AttributeError, replicate 1 (Sleep 3)) /\
  ((AttributeError = IndexError /\
    ~ (- Z.of_nat (length (failing_env 1)) <= 0 < Z.of_nat (length (failing_env 1)))) \/
   (AttributeError = AttributeError /\
    exists node, py_index (failing_env 1) 0 = Some node /\ payment node = None)).
Proof.
  apply (check_match_read_error failing_env 0 3 true 1 AttributeError 4).
  - intros j Hj. destruct j as [|j]; [reflexivity|lia].
  - reflexivity.
  - lia.
Defined.

(** X15. The calls of any run of [check_match], whatever the other tasks
    do: a number of sleeps, each of [checkTime], and after them, only if
    the run returns and [stop] is true, one [stop] on every node in the
    order of the network.  It never sleeps after a [stop], and a run that
    fails or is still going has stopped no node. *)
Theorem check_match_calls env fromNode checkTime stop fuel :
  exists n,
    (n <= fuel)%nat /\
    ((fst (check_match fuel env fromNode checkTime stop 0) = Ret tt /\
      snd (check_match fuel env fromNode checkTime stop 0) =
        replicate n (Sleep checkTime) ++
        (if stop then map StopNode (seq 0 (length (env n))) else [])) \/
     (fst (check_match fuel env fromNode checkTime stop 0) <> Ret tt /\
      snd (check_match fuel env fromNode checkTime stop 0) =
        replicate n (Sleep checkTime))).
Proof.
  destruct (check_match_shape env fromNode checkTime stop fuel 0)
    as (n & Hn & _ & Hcase).
  exists n. split; [done|]. simpl in Hcase.
  destruct Hcase as [(m & _ & _ & ->)|[(e & _ & _ & ->)|[_ ->]]]; simpl; auto.
Qed.

(** ** The end of [main] *)

(** X16. On a network on which the watcher's test would not see a match
    for [alice], the route extraction of [main] does not reach
    [build_route]: it fails with [AttributeError] (no payment, or a
    payment without match) or [IndexError] (no such node), not with an
    error of the kinds of the specification, and the default list is left
    as it was. *)
Theorem main_route_without_match fuel network alice h :
  (forall m, match_of network alice <> Ret (Some m)) ->
  exists e,
    main_route fuel network alice h = (Raise e, h) /\
    (e = AttributeError \/ e = IndexError) /\
    kind_of e = None.
Proof.
  intros Hno. unfold main_route, match_of in *.
  destruct (py_index network alice) as [node|]; [|by exists IndexError; auto].
  destruct (payment node) as [p|]; [|by exists AttributeError; auto].
  destruct (p_match p) as [m|]; [by destruct (Hno m)|].
  exists AttributeError. auto.
Qed.

Lemma main_route_without_match_witness :
  exists e,
    main_route 3 (demo_env 0) 0 init_heap = (Raise e, init_heap) /\
    (e = AttributeError \/ e = IndexError) /\
    kind_of e = None.
Proof.
  apply (main_route_without_match 3 (demo_env 0) 0 init_heap).
  intros m. discriminate.
Defined.

(** X17. When [check_match] returns, the network it saw at its last test
    is one on which the route extraction of [main] reads the match of
    [alice] and is the call [build_route(network, match.match_id,
    match.from_id)] with the default list. *)
Theorem check_match_then_main_route env alice checkTime stop fuel :
  fst (check_match fuel env alice checkTime stop 0) = Ret tt ->
  exists n m,
    (n < fuel)%nat /\
    match_of (env n) alice = Ret (Some m) /\
    forall fuel' h,
      main_route fuel' (env n) alice h =
        build_route_default fuel' (env n) (match_id m) (from_id m) h.
Proof.
  intros Hret.
  destruct (check_match_shape env alice checkTime stop fuel 0)
    as (n & Hn & _ & Hcase).
  simpl in Hcase.
  destruct Hcase as [(m & Hlt & Hm & Heq)|[(e & _ & _ & Heq)|[_ Heq]]];
    rewrite Heq in Hret; simpl in Hret; try done.
  exists n, m. split; [done|]. split; [done|].
  intros fuel' h. unfold main_route, match_of in *.
    destruct (py_index (env n) alice) as [node|]; [|done].
    destruct (payment node) as [p|]; [|done].
    injection Hm as ->. done.
Qed.

Lemma check_match_then_main_route_witness :
  exists n m,
    (n < 5)%nat /\
    match_of (demo_env n) 0 = Ret (Some m) /\
    forall fuel' h,
      main_route fuel' (demo_env n) 0 h =
        build_route_default fuel' (demo_env n) (match_id m) (from_id m) h.
Proof.
  apply (check_match_then_main_route demo_env 0 3 true 5). reflexivity.
Defined.

(** X18. The search of [main] uses the fixed endpoints 2 and 8: on a
    generated network of fewer than nine nodes it fails with "alice or
    bob are not connected" and installs nothing, and on every network of
    at least nine nodes it goes through to the creation of the tasks. *)
Theorem main_get_route_needs_nine_nodes {rng : Type} `{RandomSource rng}
    (st : state rng) :
  ((length (st_network st) < 9)%nat ->
     main_get_route st = (Raise (PyException msg_not_connected), st)) /\
  ((9 <= length (st_network st))%nat -> fst (main_get_route st) = Ret tt).
Proof.
  unfold main_get_route. split.
  - intros Hlen. apply get_route_bad_range. right. unfold in_range. lia.
  - intros Hlen.
    destruct (get_route_guard st 2 8 1) as (na & nb & _ & _ & Heq);
      [unfold in_range; lia..|done|].
    simpl in Heq. by rewrite Heq.
Qed.

Lemma main_get_route_needs_nine_nodes_witness :
  main_get_route demo_state = (Raise (PyException msg_not_connected), demo_state).
Proof.
  destruct (@main_get_route_needs_nine_nodes Z counter_source demo_state) as [Hsmall _].
  apply Hsmall. simpl. lia.
Defined.
